(** * go-logging: a leveled logger and its progress helper

    A shallow embedding of the Go package [logging]
    (InfinityTools/go-logging) and the properties of it that the
    specification states.

    Conventions of the embedding.
    - Go's [int] is taken at 64 bits: a value is a [Z], and the arithmetic
      of [Progress] wraps around at [2^63] ([GoInt.wrap]).  Levels are plain [Z]:
      the code only compares them and moves the verbosity by one inside
      [LOG, CRITICAL].
    - An [io.Writer] is a name ([Writer]); the nil interface value is
      [None].  The map [map[int]io.Writer] is a [gmap Z io_Writer] read
      with Go's zero value for a missing key.
    - [*Logger] methods mutate their receiver: a method is a function from
      the logger before the call to the logger after it.  What the process
      does outside the logger (bytes handed to sinks, the clock, the call
      stack) is a [World].
    - [fmt.Sprintf], [time.Time.Format] and the outcome of [Write] on a
      sink are services of the Go runtime, collected in the class
      [GoRuntime].
    - [logf] calls itself when a write fails; it is defined by recursion
      on a bound of the call depth (fuel), [None] meaning the bound was
      reached.
    - The package-level functions ([logging.Info] and the like) call the
      method of the same name on the global logger and are not repeated. *)

From stdpp Require Import base option list gmap strings pretty.
From Stdlib Require Import ZArith Lia Ascii.

Local Open Scope Z_scope.

(** ** Go integers *)

Module GoInt.

Definition min_int : Z := - 2 ^ 63.
Definition max_int : Z := 2 ^ 63 - 1.

(** Two's-complement wrap-around of a mathematical result into [int]. *)
Definition wrap (z : Z) : Z := (z + 2 ^ 63) mod 2 ^ 64 - 2 ^ 63.

Definition add (a b : Z) : Z := wrap (a + b).
Definition mul (a b : Z) : Z := wrap (a * b).
(** Go's [/] truncates toward zero. *)
Definition div (a b : Z) : Z := wrap (Z.quot a b).

Definition in_range (z : Z) : Prop := min_int <= z <= max_int.

End GoInt.

(** ** Strings *)

(** [n] copies of [symbol], appended on the right one at a time. *)
Fixpoint str_repeat (symbol : string) (n : nat) : string :=
  match n with
  | O => ""
  | S n' => str_repeat symbol n' +:+ symbol
  end.

(** ** Progress *)

(** The loop [for ; i2 > i1; i1++ { s += symbol }].  The first argument
    bounds the number of iterations; [Progress] passes [i2 - i1], which the
    loop never exceeds. *)
Fixpoint Progress_loop (n : nat) (i1 i2 : Z) (symbol s : string) : string :=
  match n with
  | O => s
  | S n' =>
      if i2 >? i1
      then Progress_loop n' (GoInt.add i1 1) i2 symbol (s +:+ symbol)
      else s
  end.

(** The bounds [i1], [i2] that [Progress] computes once its guards passed. *)
Definition Progress_i1 (cur max progressMax : Z) : Z :=
  GoInt.div (GoInt.mul cur progressMax) max.
Definition Progress_i2 (cur max progressMax : Z) : Z :=
  GoInt.div (GoInt.mul (GoInt.add cur 1) progressMax) max.

Definition Progress (cur max progressMax : Z) (symbol : string) : string :=
  let s := "" in
  if (max <? 1) || (progressMax <? 1) then s
  else if (cur <? 0) || (cur >=? max) then s
  else
    let i1 := Progress_i1 cur max progressMax in
    let i2 := Progress_i2 cur max progressMax in
    Progress_loop (Z.to_nat (i2 - i1)) i1 i2 symbol s.

Definition ProgressDot (cur max progressMax : Z) : string :=
  Progress cur max progressMax ".".

(** How many times the body of the loop in [Progress] runs, that is, how
    many copies of [symbol] the call returns ([Progress_copies_ok]). *)
Definition Progress_copies (cur max progressMax : Z) : Z :=
  if (max <? 1) || (progressMax <? 1) then 0
  else if (cur <? 0) || (cur >=? max) then 0
  else
    let i1 := Progress_i1 cur max progressMax in
    let i2 := Progress_i2 cur max progressMax in
    if i2 >? i1 then i2 - i1 else 0.

(** The sum of [f cur] for [cur = 0 .. max-1]. *)
Definition sum_upto (f : Z -> Z) (max : Z) : Z :=
  foldr Z.add 0 (f <$> seqZ 0 max).

(** ** Levels and timestamp layouts *)

Definition LOG : Z := 0.
Definition INFO : Z := 1.
Definition WARN : Z := 2.
Definition ERROR : Z := 3.
Definition CRITICAL : Z := 4.

Definition TS_FMT_TIME_MILLI : string := "15:04:05.000".

(** ** Sinks, the logger record and the world around it *)

(** The writers a program can hand to the logger: the two standard streams
    and any other one, told apart by a number. *)
Inductive Writer : Type :=
  | Stdout
  | Stderr
  | Sink (id : nat).

#[global] Instance Writer_eq_dec : EqDecision Writer.
Proof. solve_decision. Defined.

(** A value of interface type [io.Writer]; [None] is nil. *)
Abbreviation io_Writer := (option Writer).

Record Logger : Type := mkLogger {
  verbosity : Z;
  output : gmap Z io_Writer;
  overrideStack : list bool;
  prefixTS : bool;
  prefixLevel : bool;
  prefixCaller : bool;
  fmtTimestamp : string
}.

(** Arguments of the variadic [a ...interface{}] that the package itself
    passes or that a caller may pass. *)
Inductive GoValue : Type :=
  | VString (s : string)
  | VInt (z : Z)
  | VError (e : string).

(** One entry of the call stack as [runtime.FuncForPC] reports it. *)
Record Frame : Type := mkFrame {
  fn_name : string;
  fn_line : Z
}.

(** What lies outside the logger: every text handed to a sink so far (oldest
    first), the reading of the clock, and the frames [runtime.Callers(1, pc)]
    reports from inside [getLogPrefix], innermost first. *)
Record World : Type := mkWorld {
  writes : list (Writer * string);
  now : Z;
  frames : list Frame
}.

(** Services of the Go runtime and standard library.  [Write_err h x text]
    is the error, if any, that [x.Write(text)] returns after the writes
    [h]; an [error] is represented by its message.  [time_Now_again w] and
    [Callers_again w] are what [time.Now()] and [runtime.Callers(1, pc)]
    report inside the nested call of [logf] that follows a failed write,
    [w] being the world as that write left it: by then the clock has moved
    on and the stack is one call deeper. *)
Class GoRuntime : Type := {
  Sprintf : string -> list GoValue -> string;
  time_Format : Z -> string -> string;
  Write_err : list (Writer * string) -> Writer -> string -> option string;
  time_Now_again : World -> Z;
  Callers_again : World -> list Frame
}.

(** A value a panic carries: the string [logf] passes to [panic], or the
    runtime error of a method call on a nil [io.Writer]. *)
Inductive Payload : Type :=
  | PString (s : string)
  | PNilWriter.

Inductive Outcome : Type :=
  | Returned
  | Panicked (p : Payload).

(** The logger and the world when a call ends, and how it ended.  The
    logger is reached through a pointer, so what a call did to it before
    it panicked stays. *)
Record Result : Type := mkResult {
  res_logger : Logger;
  res_world : World;
  res_outcome : Outcome
}.

(** The newline the [ln] variants put into their format string. *)
Definition nl : string := String (ascii_of_nat 10) EmptyString.
Definition fmt_ln : string := "%s" +:+ nl.

(** ** Field updates *)

Definition with_verbosity (v : Z) (l : Logger) : Logger :=
  mkLogger v (output l) (overrideStack l) (prefixTS l) (prefixLevel l)
           (prefixCaller l) (fmtTimestamp l).
Definition with_output (o : gmap Z io_Writer) (l : Logger) : Logger :=
  mkLogger (verbosity l) o (overrideStack l) (prefixTS l) (prefixLevel l)
           (prefixCaller l) (fmtTimestamp l).
Definition with_overrideStack (st : list bool) (l : Logger) : Logger :=
  mkLogger (verbosity l) (output l) st (prefixTS l) (prefixLevel l)
           (prefixCaller l) (fmtTimestamp l).
Definition with_prefixTS (b : bool) (l : Logger) : Logger :=
  mkLogger (verbosity l) (output l) (overrideStack l) b (prefixLevel l)
           (prefixCaller l) (fmtTimestamp l).
Definition with_prefixLevel (b : bool) (l : Logger) : Logger :=
  mkLogger (verbosity l) (output l) (overrideStack l) (prefixTS l) b
           (prefixCaller l) (fmtTimestamp l).
Definition with_prefixCaller (b : bool) (l : Logger) : Logger :=
  mkLogger (verbosity l) (output l) (overrideStack l) (prefixTS l)
           (prefixLevel l) b (fmtTimestamp l).
Definition with_fmtTimestamp (f : string) (l : Logger) : Logger :=
  mkLogger (verbosity l) (output l) (overrideStack l) (prefixTS l)
           (prefixLevel l) (prefixCaller l) f.

(** The three prefix switches in the order [OverridePrefix] takes them:
    timestamp, caller, level. *)
Definition prefix_flags (l : Logger) : bool * bool * bool :=
  (prefixTS l, prefixCaller l, prefixLevel l).

(** [m[k]] on a Go map: the zero value (nil) when the key is missing. *)
Definition map_get (m : gmap Z io_Writer) (k : Z) : io_Writer :=
  default None (m !! k).

(** ** Configuration surface *)

Definition NewLogger : Logger :=
  let l := mkLogger INFO ∅ [] false false false TS_FMT_TIME_MILLI in
  let l := with_output (<[LOG := Some Stdout]> (output l)) l in
  let l := with_output (<[INFO := Some Stdout]> (output l)) l in
  let l := with_output (<[WARN := Some Stderr]> (output l)) l in
  let l := with_output (<[ERROR := Some Stderr]> (output l)) l in
  let l := with_output (<[CRITICAL := Some Stderr]> (output l)) l in
  l.

Definition GetVerbosity (l : Logger) : Z := verbosity l.

Definition SetVerbosity (l : Logger) (level : Z) : Logger :=
  let level := if level <? LOG then LOG else level in
  let level := if level >? CRITICAL then CRITICAL else level in
  with_verbosity level l.

(** Returns the logger after the call and the returned [int]. *)
Definition IncreaseVerbosity (l : Logger) : Logger * Z :=
  let l := if verbosity l <? CRITICAL
           then with_verbosity (verbosity l + 1) l else l in
  (l, verbosity l).

Definition DecreaseVerbosity (l : Logger) : Logger * Z :=
  let l := if verbosity l >? LOG
           then with_verbosity (verbosity l - 1) l else l in
  (l, verbosity l).

Definition GetPrefixTimestamp (l : Logger) : bool := prefixTS l.
Definition SetPrefixTimestamp (l : Logger) (set : bool) : Logger :=
  with_prefixTS set l.
Definition GetTimestampFormat (l : Logger) : string := fmtTimestamp l.
Definition SetTimestampFormat (l : Logger) (format : string) : Logger :=
  with_fmtTimestamp format l.
Definition GetPrefixCaller (l : Logger) : bool := prefixCaller l.
Definition SetPrefixCaller (l : Logger) (set : bool) : Logger :=
  with_prefixCaller set l.
Definition GetPrefixLevel (l : Logger) : bool := prefixLevel l.
Definition SetPrefixLevel (l : Logger) (set : bool) : Logger :=
  with_prefixLevel set l.

Definition GetOutput (l : Logger) (level : Z) : io_Writer :=
  if (level <? LOG) || (level >? CRITICAL) then None
  else map_get (output l) level.

(** The [switch] has no [fallthrough]: the empty clauses [case WARN:] and
    [case ERROR:] leave [writer] as it is. *)
Definition SetOutput (l : Logger) (level : Z) (writer : io_Writer) : Logger :=
  if (level <? LOG) || (level >? CRITICAL) then l
  else
    let writer :=
      match writer with
      | None =>
          if level =? WARN then writer
          else if level =? ERROR then writer
          else if level =? CRITICAL then Some Stderr
          else Some Stdout
      | Some _ => writer
      end in
    with_output (<[level := writer]> (output l)) l.

(** ** The override stack *)

Definition pushOverride (l : Logger) (ts caller level : bool) : Logger :=
  let l := with_overrideStack
             (overrideStack l ++ [prefixTS l; prefixCaller l; prefixLevel l]) l in
  let l := with_prefixTS ts l in
  let l := with_prefixCaller caller l in
  with_prefixLevel level l.

(** The three reads are inside the slice once its length exceeds 2; the
    last clause stands for Go's index panic and is never taken
    ([popOverride_snoc3], [popOverride_short]). *)
Definition popOverride (l : Logger) : Logger :=
  let st := overrideStack l in
  if (2 <? length st)%nat then
    let idx := (length st - 3)%nat in
    match st !! idx, st !! (idx + 1)%nat, st !! (idx + 2)%nat with
    | Some a, Some b, Some c =>
        let l := with_prefixTS a l in
        let l := with_prefixCaller b l in
        let l := with_prefixLevel c l in
        with_overrideStack (take idx st) l
    | _, _, _ => l
    end
  else l.

(** The method returns its receiver; here that is the logger after the
    call. *)
Definition OverridePrefix (l : Logger) (showTimestamp showCaller showLevel : bool)
  : Logger :=
  pushOverride l showTimestamp showCaller showLevel.

(** ** The emission pipeline *)

Definition getOutput (l : Logger) (level : Z) : io_Writer :=
  let level := if level <? LOG then LOG else level in
  let level := if level >? CRITICAL then CRITICAL else level in
  map_get (output l) level.

Definition getLevelString (level : Z) : string :=
  let level := if level <? LOG then LOG else level in
  let level := if level >? CRITICAL then CRITICAL else level in
  if level =? LOG then "LOG "
  else if level =? INFO then "INFO"
  else if level =? WARN then "WARN"
  else if level =? ERROR then "ERRO"
  else if level =? CRITICAL then "CRIT"
  else "    ".

(** [strings.Index(s, sub) < 0]. *)
Definition str_absent (s sub : string) : bool :=
  match String.index 0 sub s with
  | Some _ => false
  | None => true
  end.

Section Pipeline.
Context `{rt : GoRuntime}.

(** The caller part of the prefix.  [pc] has room for 16 frames; the key
    is the name of the first one cut before [".(*Logger)"]; the first
    later frame whose name does not contain the key is reported. *)
Definition caller_prefix (stack : list Frame) : string :=
  match take 16 stack with
  | [] => ""
  | f0 :: rest =>
      let key := fn_name f0 in
      let key := match String.index 0 ".(*Logger)" key with
                 | Some pos => String.substring 0 pos key
                 | None => key
                 end in
      match List.find (fun f => str_absent (fn_name f) key) rest with
      | Some f => Sprintf "%s:%d " [VString (fn_name f); VInt (fn_line f)]
      | None => ""
      end
  end.

Definition getLogPrefix (l : Logger) (w : World) (level : Z) : string :=
  let prefix := "" in
  let prefix :=
    if prefixTS l
    then (prefix +:+ time_Format (now w) (fmtTimestamp l)) +:+ " "
    else prefix in
  let prefix :=
    if prefixCaller l then prefix +:+ caller_prefix (frames w) else prefix in
  let prefix :=
    if prefixLevel l then (prefix +:+ getLevelString level) +:+ " "
    else prefix in
  prefix.

(** [fmt.Fprintf(x, format, a...)]: one [Write] of the formatted text. *)
Definition Fprintf (w : World) (x : Writer) (format : string)
    (a : list GoValue) : World * option string :=
  let text := Sprintf format a in
  (mkWorld (writes w ++ [(x, text)]) (now w) (frames w),
   Write_err (writes w) x text).

(** The world the nested call of [logf] runs in: the writes so far, and
    the clock and the call stack read anew. *)
Definition nested_world (w : World) : World :=
  mkWorld (writes w) (time_Now_again w) (Callers_again w).

(** [logf].  The panic of the [CRITICAL] branch and the one of a write
    through a nil writer end the call where they occur, before
    [popOverride].  A failed write is reported by a nested call, which
    builds its own prefix ([time.Now()] and [runtime.Callers] are called
    again) and returns before the outer [popOverride] runs. *)
Fixpoint logf (fuel : nat) (l : Logger) (w : World) (wr : io_Writer)
    (level : Z) (format : string) (a : list GoValue) : option Result :=
  match fuel with
  | O => None
  | S fuel' =>
      let level := if level >? CRITICAL then CRITICAL else level in
      if level >=? verbosity l then
        if level =? CRITICAL then
          Some (mkResult l w (Panicked (PString (Sprintf format a))))
        else
          let wr := match wr with None => getOutput l level | Some _ => wr end in
          let prefix := getLogPrefix l w level in
          let msg := Sprintf format a in
          match wr with
          | None => Some (mkResult l w (Panicked PNilWriter))
          | Some x =>
              match Fprintf w x "%s%s" [VString prefix; VString msg] with
              | (w', Some err) =>
                  match logf fuel' l (nested_world w') (Some Stderr) ERROR
                             "logging.Logf(): %v" [VError err] with
                  | Some (mkResult l' w'' Returned) =>
                      Some (mkResult (popOverride l') w'' Returned)
                  | other => other
                  end
              | (w', None) => Some (mkResult (popOverride l) w' Returned)
              end
          end
      else Some (mkResult (popOverride l) w Returned)
  end.

Definition Log fuel l w (msg : string) := logf fuel l w (getOutput l LOG) LOG msg [].
Definition Info fuel l w (msg : string) := logf fuel l w (getOutput l INFO) INFO msg [].
Definition Warn fuel l w (msg : string) := logf fuel l w (getOutput l WARN) WARN msg [].
Definition Error fuel l w (msg : string) := logf fuel l w (getOutput l ERROR) ERROR msg [].
Definition Critical fuel l w (msg : string) :=
  logf fuel l w (getOutput l CRITICAL) CRITICAL msg [].

Definition Logf fuel l w (format : string) (a : list GoValue) :=
  logf fuel l w (getOutput l LOG) LOG format a.
Definition Infof fuel l w (format : string) (a : list GoValue) :=
  logf fuel l w (getOutput l INFO) INFO format a.
Definition Warnf fuel l w (format : string) (a : list GoValue) :=
  logf fuel l w (getOutput l WARN) WARN format a.
Definition Errorf fuel l w (format : string) (a : list GoValue) :=
  logf fuel l w (getOutput l ERROR) ERROR format a.
Definition Criticalf fuel l w (format : string) (a : list GoValue) :=
  logf fuel l w (getOutput l CRITICAL) CRITICAL format a.

Definition Logln fuel l w (msg : string) :=
  logf fuel l w (getOutput l LOG) LOG fmt_ln [VString msg].
Definition Infoln fuel l w (msg : string) :=
  logf fuel l w (getOutput l INFO) INFO fmt_ln [VString msg].
Definition Warnln fuel l w (msg : string) :=
  logf fuel l w (getOutput l WARN) WARN fmt_ln [VString msg].
Definition Errorln fuel l w (msg : string) :=
  logf fuel l w (getOutput l ERROR) ERROR fmt_ln [VString msg].
Definition Criticalln fuel l w (msg : string) :=
  logf fuel l w (getOutput l CRITICAL) CRITICAL fmt_ln [VString msg].

End Pipeline.

(** ** Progress output through the logger *)

Section ProgressCalls.
Context `{rt : GoRuntime}.

Definition LogProgress fuel l w (cur max progressMax : Z) (symbol : string)
  : option Result :=
  let s := Progress cur max progressMax symbol in
  if (0 <? String.length s)%nat then
    let l := pushOverride l false false false in
    logf fuel l w (getOutput l LOG) LOG s []
  else Some (mkResult l w Returned).

Definition InfoProgress fuel l w (cur max progressMax : Z) (symbol : string)
  : option Result :=
  let s := Progress cur max progressMax symbol in
  if (0 <? String.length s)%nat then
    let l := pushOverride l false false false in
    logf fuel l w (getOutput l INFO) INFO s []
  else Some (mkResult l w Returned).

Definition WarnProgress fuel l w (cur max progressMax : Z) (symbol : string)
  : option Result :=
  let s := Progress cur max progressMax symbol in
  if (0 <? String.length s)%nat then
    let l := pushOverride l false false false in
    logf fuel l w (getOutput l WARN) WARN s []
  else Some (mkResult l w Returned).

Definition ErrorProgress fuel l w (cur max progressMax : Z) (symbol : string)
  : option Result :=
  let s := Progress cur max progressMax symbol in
  if (0 <? String.length s)%nat then
    let l := pushOverride l false false false in
    logf fuel l w (getOutput l ERROR) ERROR s []
  else Some (mkResult l w Returned).

Definition LogProgressDot fuel l w (cur max progressMax : Z) :=
  LogProgress fuel l w cur max progressMax ".".
Definition InfoProgressDot fuel l w (cur max progressMax : Z) :=
  InfoProgress fuel l w cur max progressMax ".".
Definition WarnProgressDot fuel l w (cur max progressMax : Z) :=
  WarnProgress fuel l w cur max progressMax ".".
Definition ErrorProgressDot fuel l w (cur max progressMax : Z) :=
  ErrorProgress fuel l w cur max progressMax ".".

End ProgressCalls.

(** ** Calls as data *)

(** The fifteen log output functions, with their arguments. *)
Inductive Emission : Type :=
  | CallLog (msg : string)
  | CallInfo (msg : string)
  | CallWarn (msg : string)
  | CallError (msg : string)
  | CallCritical (msg : string)
  | CallLogf (format : string) (a : list GoValue)
  | CallInfof (format : string) (a : list GoValue)
  | CallWarnf (format : string) (a : list GoValue)
  | CallErrorf (format : string) (a : list GoValue)
  | CallCriticalf (format : string) (a : list GoValue)
  | CallLogln (msg : string)
  | CallInfoln (msg : string)
  | CallWarnln (msg : string)
  | CallErrorln (msg : string)
  | CallCriticalln (msg : string).

(** The level, format string and arguments an emission passes to [logf]. *)
Definition emission_level (e : Emission) : Z :=
  match e with
  | CallLog _ | CallLogf _ _ | CallLogln _ => LOG
  | CallInfo _ | CallInfof _ _ | CallInfoln _ => INFO
  | CallWarn _ | CallWarnf _ _ | CallWarnln _ => WARN
  | CallError _ | CallErrorf _ _ | CallErrorln _ => ERROR
  | CallCritical _ | CallCriticalf _ _ | CallCriticalln _ => CRITICAL
  end.

Definition emission_format (e : Emission) : string :=
  match e with
  | CallLog msg | CallInfo msg | CallWarn msg | CallError msg
  | CallCritical msg => msg
  | CallLogf format _ | CallInfof format _ | CallWarnf format _
  | CallErrorf format _ | CallCriticalf format _ => format
  | CallLogln _ | CallInfoln _ | CallWarnln _ | CallErrorln _
  | CallCriticalln _ => fmt_ln
  end.

Definition emission_args (e : Emission) : list GoValue :=
  match e with
  | CallLog _ | CallInfo _ | CallWarn _ | CallError _ | CallCritical _ => []
  | CallLogf _ a | CallInfof _ a | CallWarnf _ a | CallErrorf _ a
  | CallCriticalf _ a => a
  | CallLogln msg | CallInfoln msg | CallWarnln msg | CallErrorln msg
  | CallCriticalln msg => [VString msg]
  end.

(** Every operation a client can apply to a logger it holds.  The getters
    are left out: they return a field and change nothing. *)
Inductive Op : Type :=
  | OpSetVerbosity (level : Z)
  | OpIncreaseVerbosity
  | OpDecreaseVerbosity
  | OpSetPrefixTimestamp (set : bool)
  | OpSetTimestampFormat (format : string)
  | OpSetPrefixCaller (set : bool)
  | OpSetPrefixLevel (set : bool)
  | OpSetOutput (level : Z) (writer : io_Writer)
  | OpOverridePrefix (showTimestamp showCaller showLevel : bool)
  | OpEmit (e : Emission)
  | OpLogProgress (cur max progressMax : Z) (symbol : string)
  | OpInfoProgress (cur max progressMax : Z) (symbol : string)
  | OpWarnProgress (cur max progressMax : Z) (symbol : string)
  | OpErrorProgress (cur max progressMax : Z) (symbol : string)
  | OpLogProgressDot (cur max progressMax : Z)
  | OpInfoProgressDot (cur max progressMax : Z)
  | OpWarnProgressDot (cur max progressMax : Z)
  | OpErrorProgressDot (cur max progressMax : Z).

Section Calls.
Context `{rt : GoRuntime}.

Definition emit (fuel : nat) (l : Logger) (w : World) (e : Emission)
  : option Result :=
  match e with
  | CallLog msg => Log fuel l w msg
  | CallInfo msg => Info fuel l w msg
  | CallWarn msg => Warn fuel l w msg
  | CallError msg => Error fuel l w msg
  | CallCritical msg => Critical fuel l w msg
  | CallLogf format a => Logf fuel l w format a
  | CallInfof format a => Infof fuel l w format a
  | CallWarnf format a => Warnf fuel l w format a
  | CallErrorf format a => Errorf fuel l w format a
  | CallCriticalf format a => Criticalf fuel l w format a
  | CallLogln msg => Logln fuel l w msg
  | CallInfoln msg => Infoln fuel l w msg
  | CallWarnln msg => Warnln fuel l w msg
  | CallErrorln msg => Errorln fuel l w msg
  | CallCriticalln msg => Criticalln fuel l w msg
  end.

Definition run_op (fuel : nat) (l : Logger) (w : World) (op : Op)
  : option Result :=
  let ret l := Some (mkResult l w Returned) in
  match op with
  | OpSetVerbosity level => ret (SetVerbosity l level)
  | OpIncreaseVerbosity => ret (fst (IncreaseVerbosity l))
  | OpDecreaseVerbosity => ret (fst (DecreaseVerbosity l))
  | OpSetPrefixTimestamp set => ret (SetPrefixTimestamp l set)
  | OpSetTimestampFormat format => ret (SetTimestampFormat l format)
  | OpSetPrefixCaller set => ret (SetPrefixCaller l set)
  | OpSetPrefixLevel set => ret (SetPrefixLevel l set)
  | OpSetOutput level writer => ret (SetOutput l level writer)
  | OpOverridePrefix a b c => ret (OverridePrefix l a b c)
  | OpEmit e => emit fuel l w e
  | OpLogProgress cur max pm symbol => LogProgress fuel l w cur max pm symbol
  | OpInfoProgress cur max pm symbol => InfoProgress fuel l w cur max pm symbol
  | OpWarnProgress cur max pm symbol => WarnProgress fuel l w cur max pm symbol
  | OpErrorProgress cur max pm symbol => ErrorProgress fuel l w cur max pm symbol
  | OpLogProgressDot cur max pm => LogProgressDot fuel l w cur max pm
  | OpInfoProgressDot cur max pm => InfoProgressDot fuel l w cur max pm
  | OpWarnProgressDot cur max pm => WarnProgressDot fuel l w cur max pm
  | OpErrorProgressDot cur max pm => ErrorProgressDot fuel l w cur max pm
  end.

(** The logger states a client can bring about: [NewLogger()], then any
    operation in any world, whether the call returned or panicked (a
    recovered panic leaves the logger as it was at that moment). *)
Inductive reachable : Logger -> Prop :=
  | reach_new : reachable NewLogger
  | reach_step l w op fuel r :
      reachable l -> run_op fuel l w op = Some r -> reachable (res_logger r).

(** No write on the standard error stream ever fails. *)
Definition stderr_reliable : Prop :=
  forall h text, Write_err h Stderr text = None.

End Calls.

(** ** The documented invariant, as far as the code keeps it *)

(** The verbosity is a level and the override stack holds whole triples. *)
Definition Logger_inv (l : Logger) : Prop :=
  LOG <= verbosity l <= CRITICAL /\ Nat.divide 3 (length (overrideStack l)).

(** Every level has a sink. *)
Definition sinks_present (l : Logger) : Prop :=
  forall level, LOG <= level <= CRITICAL -> GetOutput l level <> None.

(** The calls [SetOutput(WARN, nil)] and [SetOutput(ERROR, nil)]. *)
Definition nil_for_WARN_or_ERROR (op : Op) : bool :=
  match op with
  | OpSetOutput level None => (level =? WARN) || (level =? ERROR)
  | _ => false
  end.

(** ** Two runtimes to run the model in *)

(** A formatter good enough for the verbs the package itself uses: each
    [%s], [%v] or [%d] takes the next argument, other characters are
    copied. *)
Definition show_value (v : GoValue) : string :=
  match v with
  | VString s => s
  | VInt z => pretty z
  | VError e => e
  end.

Fixpoint simple_Sprintf (format : string) (a : list GoValue) : string :=
  match format with
  | EmptyString => EmptyString
  | String c rest =>
      match rest with
      | String d rest' =>
          if (Ascii.eqb c "%" &&
              (Ascii.eqb d "s" || Ascii.eqb d "v" || Ascii.eqb d "d"))%bool
          then match a with
               | v :: a' => show_value v +:+ simple_Sprintf rest' a'
               | [] => simple_Sprintf rest' a
               end
          else String c (simple_Sprintf rest a)
      | EmptyString => String c EmptyString
      end
  end.

(** Every sink accepts every write.  In this runtime and the next ones the
    clock stands still and a nested call sees the frames of the outer one. *)
Definition quiet_runtime : GoRuntime :=
  {| Sprintf := simple_Sprintf;
     time_Format := fun _ layout => layout;
     Write_err := fun _ _ _ => None;
     time_Now_again := now;
     Callers_again := frames |}.

(** The sink [Sink 0] rejects every write; all others accept. *)
Definition broken_sink_runtime : GoRuntime :=
  {| Sprintf := simple_Sprintf;
     time_Format := fun _ layout => layout;
     Write_err := fun _ x _ =>
       if decide (x = Sink 0) then Some "write: broken pipe" else None;
     time_Now_again := now;
     Callers_again := frames |}.

Definition world0 : World := mkWorld [] 0 [].

(** ** Notions for the further properties *)

(** The key [getLogPrefix] cuts out of the name of its own frame. *)
Definition caller_key (name : string) : string :=
  match String.index 0 ".(*Logger)" name with
  | Some pos => String.substring 0 pos name
  | None => name
  end.

(** One [OverridePrefix] call for each triple, in order. *)
Definition override_all (l : Logger) (ts : list (bool * bool * bool)) : Logger :=
  foldl (fun l t => OverridePrefix l t.1.1 t.1.2 t.2) l ts.

(** Groups of operations: those that set a sink, the verbosity or the
    timestamp layout. *)
Definition is_SetOutput (op : Op) : bool :=
  match op with OpSetOutput _ _ => true | _ => false end.

Definition sets_verbosity (op : Op) : bool :=
  match op with
  | OpSetVerbosity _ | OpIncreaseVerbosity | OpDecreaseVerbosity => true
  | _ => false
  end.

Definition is_SetTimestampFormat (op : Op) : bool :=
  match op with OpSetTimestampFormat _ => true | _ => false end.

(** The operations that go through [logf]. *)
Definition writes_log (op : Op) : bool :=
  match op with
  | OpEmit _
  | OpLogProgress _ _ _ _ | OpInfoProgress _ _ _ _
  | OpWarnProgress _ _ _ _ | OpErrorProgress _ _ _ _
  | OpLogProgressDot _ _ _ | OpInfoProgressDot _ _ _
  | OpWarnProgressDot _ _ _ | OpErrorProgressDot _ _ _ => true
  | _ => false
  end.

Section FurtherNotions.
Context `{rt : GoRuntime}.

(** The states reached without ever calling [SetOutput(WARN, nil)] or
    [SetOutput(ERROR, nil)]. *)
Inductive reachable_checked : Logger -> Prop :=
  | checked_new : reachable_checked NewLogger
  | checked_step l w op fuel r :
      reachable_checked l -> nil_for_WARN_or_ERROR op = false ->
      run_op fuel l w op = Some r -> reachable_checked (res_logger r).

(** The four progress methods with the level each logs at. *)
Definition progress_calls
  : list ((nat -> Logger -> World -> Z -> Z -> Z -> string -> option Result) * Z) :=
  [(LogProgress, LOG); (InfoProgress, INFO);
   (WarnProgress, WARN); (ErrorProgress, ERROR)].

(** Every write on every sink fails. *)
Definition writes_always_fail : Prop :=
  forall h x text, Write_err h x text <> None.

End FurtherNotions.

(** No sink accepts any write. *)
Definition dead_runtime : GoRuntime :=
  {| Sprintf := simple_Sprintf;
     time_Format := fun _ layout => layout;
     Write_err := fun _ _ _ => Some "file already closed";
     time_Now_again := now;
     Callers_again := frames |}.

(** The timestamp shows the clock, the clock moves on by one between a
    failed write and its report, and [Sink 0] rejects every write. *)
Definition ticking_runtime : GoRuntime :=
  {| Sprintf := simple_Sprintf;
     time_Format := fun t _ => pretty t;
     Write_err := fun _ x _ =>
       if decide (x = Sink 0) then Some "write: broken pipe" else None;
     time_Now_again := fun w => now w + 1;
     Callers_again := frames |}.

(** * Properties *)

(** ** Go integers and strings *)

Lemma wrap_small z : GoInt.in_range z -> GoInt.wrap z = z.
Proof.
  unfold GoInt.in_range, GoInt.min_int, GoInt.max_int, GoInt.wrap. intros Hz.
  rewrite Z.mod_small; lia.
Qed.

Lemma wrap_in_range z : GoInt.in_range (GoInt.wrap z).
Proof.
  unfold GoInt.in_range, GoInt.min_int, GoInt.max_int, GoInt.wrap.
  pose proof (Z.mod_pos_bound (z + 2 ^ 63) (2 ^ 64)). lia.
Qed.

Lemma app_cons_str (c : ascii) (s t : string) :
  String c s +:+ t = String c (s +:+ t).
Proof. reflexivity. Qed.

Lemma app_empty_r (s : string) : s +:+ "" = s.
Proof.
  induction s as [|c s IH]; [done |].
  by rewrite app_cons_str, IH.
Qed.

Lemma length_app_str (a b : string) :
  String.length (a +:+ b) = (String.length a + String.length b)%nat.
Proof.
  induction a as [|x a IH]; [done |].
  rewrite app_cons_str. simpl. by rewrite IH.
Qed.

Lemma length_str_repeat symbol n :
  String.length (str_repeat symbol n) = (n * String.length symbol)%nat.
Proof.
  induction n as [|n IH]; simpl; [done |].
  rewrite length_app_str, IH. lia.
Qed.


(** ** Progress *)

Lemma str_repeat_iter symbol n :
  str_repeat symbol n = Nat.iter n (fun t => t +:+ symbol) "".
Proof. induction n as [|n IH]; simpl; [done | by rewrite IH]. Qed.

(** The loop started at [s] appends [symbol] once for each integer from
    [i1] up to [i2 - 1]. *)
Lemma Progress_loop_run n : forall i1 i2 symbol s,
  GoInt.in_range i1 -> GoInt.in_range i2 -> n = Z.to_nat (i2 - i1) ->
  Progress_loop n i1 i2 symbol s = Nat.iter n (fun t => t +:+ symbol) s.
Proof.
  induction n as [|n IH]; intros i1 i2 symbol s H1 H2 Hn; [done |].
  cbn [Progress_loop].
  assert (i1 < i2) as Hlt by lia.
  destruct (Z.gtb_spec i2 i1) as [_|]; [| lia].
  assert (GoInt.add i1 1 = i1 + 1) as ->.
  { apply wrap_small. unfold GoInt.in_range in *. lia. }
  rewrite IH; [| unfold GoInt.in_range in *; lia | done | lia].
  exact (Nat.iter_swap n _ (fun t => t +:+ symbol) s).
Qed.

Lemma Progress_i1_in_range cur max pm : GoInt.in_range (Progress_i1 cur max pm).
Proof. apply wrap_in_range. Qed.

Lemma Progress_i2_in_range cur max pm : GoInt.in_range (Progress_i2 cur max pm).
Proof. apply wrap_in_range. Qed.

(** [Progress_copies] counts the copies [Progress] returns, on every input. *)
Lemma Progress_copies_ok cur max pm symbol :
  Progress cur max pm symbol
  = str_repeat symbol (Z.to_nat (Progress_copies cur max pm)).
Proof.
  unfold Progress, Progress_copies.
  destruct ((max <? 1) || (pm <? 1)); [done |].
  destruct ((cur <? 0) || (cur >=? max)); [done |].
  cbv zeta.
  rewrite Progress_loop_run;
    [| apply Progress_i1_in_range | apply Progress_i2_in_range | done].
  rewrite str_repeat_iter.
  destruct (Z.gtb_spec (Progress_i2 cur max pm) (Progress_i1 cur max pm));
    [done |].
  by replace (Z.to_nat (Progress_i2 cur max pm - Progress_i1 cur max pm))
    with (Z.to_nat 0) by lia.
Qed.

Lemma Progress_copies_nonneg cur max pm : 0 <= Progress_copies cur max pm.
Proof.
  unfold Progress_copies.
  repeat match goal with |- context [if ?b then _ else _] => destruct b eqn:? end;
    lia.
Qed.

(** Without overflow the two bounds are the floors of the specification. *)
Lemma Progress_bounds_exact cur max pm :
  1 <= max -> 1 <= pm -> 0 <= cur < max -> (cur + 1) * pm <= GoInt.max_int ->
  Progress_i1 cur max pm = cur * pm / max /\
  Progress_i2 cur max pm = (cur + 1) * pm / max.
Proof.
  intros Hmax Hpm Hcur Hfit.
  assert (0 <= cur * pm <= GoInt.max_int) as H1 by nia.
  assert (0 <= (cur + 1) * pm) as H2 by nia.
  assert (forall x, 0 <= x <= GoInt.max_int -> GoInt.in_range x) as Hin.
  { unfold GoInt.in_range, GoInt.min_int, GoInt.max_int. lia. }
  assert (forall x, 0 <= x <= GoInt.max_int -> 0 <= x / max <= GoInt.max_int)
    as Hdiv.
  { intros x Hx. split; [apply Z.div_pos; lia |].
    transitivity x; [apply Z.div_le_upper_bound; nia | lia]. }
  unfold Progress_i1, Progress_i2, GoInt.div, GoInt.mul, GoInt.add.
  rewrite (wrap_small (cur + 1)) by (apply Hin; nia).
  rewrite (wrap_small (cur * pm)) by (apply Hin; lia).
  rewrite (wrap_small ((cur + 1) * pm)) by (apply Hin; lia).
  rewrite !Z.quot_div_nonneg by lia.
  rewrite !wrap_small by (apply Hin, Hdiv; lia).
  done.
Qed.

Lemma Progress_copies_exact cur max pm :
  1 <= max -> 1 <= pm -> 0 <= cur < max -> (cur + 1) * pm <= GoInt.max_int ->
  Progress_copies cur max pm = (cur + 1) * pm / max - cur * pm / max.
Proof.
  intros Hmax Hpm Hcur Hfit.
  destruct (Progress_bounds_exact cur max pm) as [E1 E2]; try done.
  unfold Progress_copies. rewrite E1, E2.
  destruct (Z.ltb_spec max 1); [lia |].
  destruct (Z.ltb_spec pm 1); [lia |].
  destruct (Z.ltb_spec cur 0); [lia |].
  destruct (Z.geb_spec cur max); [lia |].
  cbn [orb].
  assert (cur * pm / max <= (cur + 1) * pm / max)
    by (apply Z.div_le_mono; nia).
  destruct (Z.gtb_spec ((cur + 1) * pm / max) (cur * pm / max)); lia.
Qed.

Lemma foldr_add_app (xs ys : list Z) :
  foldr Z.add 0 (xs ++ ys) = foldr Z.add 0 xs + foldr Z.add 0 ys.
Proof. induction xs as [|x xs IH]; simpl; [done | rewrite IH; lia]. Qed.

Lemma sum_upto_succ f k : 0 <= k -> sum_upto f (k + 1) = sum_upto f k + f k.
Proof.
  intros Hk. unfold sum_upto.
  rewrite seqZ_app by lia. rewrite fmap_app, foldr_add_app.
  f_equal. rewrite Z.add_0_l.
  change 1 with (Z.succ 0). rewrite seqZ_cons by lia.
  rewrite seqZ_nil by lia. simpl. lia.
Qed.

(** Telescoping: the copies returned for the positions below [k] add up to
    the bound reached at [k]. *)
Lemma sum_copies_prefix max pm k :
  1 <= max -> 1 <= pm -> 0 <= k <= max -> k * pm <= GoInt.max_int ->
  sum_upto (fun cur => Progress_copies cur max pm) k = k * pm / max.
Proof.
  intros Hmax Hpm [Hk0 Hk].
  revert Hk. pattern k. apply natlike_ind; [| | done].
  - intros _ _. unfold sum_upto. rewrite seqZ_nil by lia.
    cbn. by rewrite Z.div_0_l by lia.
  - intros x Hx IH Hle Hfit. replace (Z.succ x) with (x + 1) in * by lia.
    rewrite sum_upto_succ by done.
    rewrite IH by nia.
    rewrite Progress_copies_exact by nia. lia.
Qed.

Lemma sum_upto_ext f g max :
  (forall cur, f cur = g cur) -> sum_upto f max = sum_upto g max.
Proof.
  intros Hfg. unfold sum_upto.
  induction (seqZ 0 max) as [|x xs IH]; csimpl; [done |].
  by rewrite Hfg, IH.
Qed.

Lemma sum_upto_scale f k max :
  sum_upto (fun cur => f cur * k) max = sum_upto f max * k.
Proof.
  unfold sum_upto.
  induction (seqZ 0 max) as [|x xs IH]; csimpl; [done |].
  rewrite IH. lia.
Qed.

(** C5 as stated fails on 64-bit [int]: at [cur = 2^62], [max = 2^62 + 1],
    [progressMax = 4] the products [cur * progressMax] and
    [(cur + 1) * progressMax] wrap around to 0 and 4, both bounds are 0 and
    the call returns the empty string, where the floors of the claim are 3
    and 4 and ask for one copy. *)
Lemma Progress_floor_counterexample :
  ~ (forall cur max progressMax symbol,
        GoInt.in_range cur -> GoInt.in_range max -> GoInt.in_range progressMax ->
        1 <= max -> 1 <= progressMax -> 0 <= cur < max ->
        Progress cur max progressMax symbol
        = str_repeat symbol
            (Z.to_nat ((cur + 1) * progressMax / max - cur * progressMax / max))).
Proof.
  intros H.
  specialize (H (2 ^ 62) (2 ^ 62 + 1) 4 "*").
  assert (forall z, 0 <= z <= 2 ^ 62 + 1 -> GoInt.in_range z) as Hin.
  { unfold GoInt.in_range, GoInt.min_int, GoInt.max_int. lia. }
  specialize (H ltac:(apply Hin; lia) ltac:(apply Hin; lia) ltac:(apply Hin; lia)
                ltac:(lia) ltac:(lia) ltac:(lia)).
  vm_compute in H. discriminate H.
Qed.

(** C5, amended: [Progress] returns the empty string when [max < 1],
    [progressMax < 1] or [cur] is outside [0, max); otherwise, provided
    [(cur + 1) * progressMax] fits a 64-bit [int], it returns exactly
    [i2 - i1] copies of [symbol] for [i1 = floor(cur * progressMax / max)]
    and [i2 = floor((cur + 1) * progressMax / max)].  It is a function of
    its four arguments alone: no logger is read or written. *)
Theorem Progress_spec cur max progressMax symbol :
  (max < 1 \/ progressMax < 1 \/ cur < 0 \/ max <= cur ->
   Progress cur max progressMax symbol = "") /\
  (1 <= max -> 1 <= progressMax -> 0 <= cur < max ->
   (cur + 1) * progressMax <= GoInt.max_int ->
   let i1 := cur * progressMax / max in
   let i2 := (cur + 1) * progressMax / max in
   i1 <= i2 /\
   Progress cur max progressMax symbol = str_repeat symbol (Z.to_nat (i2 - i1))).
Proof.
  split.
  - intros Hout. unfold Progress.
    destruct (Z.ltb_spec max 1); [done |].
    destruct (Z.ltb_spec progressMax 1); [done |].
    destruct (Z.ltb_spec cur 0); [done |].
    destruct (Z.geb_spec cur max); [done | lia].
  - intros Hmax Hpm Hcur Hfit i1 i2.
    pose proof (Progress_copies_exact cur max progressMax Hmax Hpm Hcur Hfit) as E.
    pose proof (Progress_copies_nonneg cur max progressMax) as Hnn.
    split; [subst i1 i2; lia |].
    rewrite Progress_copies_ok. by rewrite E.
Qed.

Lemma Progress_spec_witness :
  Progress 5 4 2 "*" = "" /\
  Progress 1 4 2 "*" = str_repeat "*" (Z.to_nat ((1 + 1) * 2 / 4 - 1 * 2 / 4)).
Proof.
  split.
  - apply (Progress_spec 5 4 2 "*"). lia.
  - apply (Progress_spec 1 4 2 "*"); unfold GoInt.max_int; lia.
Defined.

(** C4 as stated fails on 64-bit [int]: for [max = 2^32] and
    [progressMax = 2^31] the positions below [max - 1] return
    [2^31 - 1] copies in all, and at [cur = max - 1] the product
    [(cur + 1) * progressMax = 2^63] wraps around to [-2^63], the upper
    bound [i2] is negative and the last copy is not returned. *)
Lemma Progress_total_counterexample :
  ~ (forall max progressMax (n : Z -> nat),
        GoInt.in_range max -> GoInt.in_range progressMax ->
        1 <= max -> 1 <= progressMax ->
        (forall cur, 0 <= cur < max ->
                     Progress cur max progressMax "*" = str_repeat "*" (n cur)) ->
        sum_upto (fun cur => Z.of_nat (n cur)) max = progressMax).
Proof.
  intros H.
  set (max := 2 ^ 32). set (pm := 2 ^ 31).
  specialize (H max pm (fun cur => Z.to_nat (Progress_copies cur max pm))).
  assert (forall z, 0 <= z <= 2 ^ 32 -> GoInt.in_range z) as Hin.
  { unfold GoInt.in_range, GoInt.min_int, GoInt.max_int. lia. }
  specialize (H ltac:(apply Hin; subst max; lia) ltac:(apply Hin; subst pm; lia)
                ltac:(subst max; lia) ltac:(subst pm; lia)
                (fun cur _ => Progress_copies_ok cur max pm "*")).
  rewrite (sum_upto_ext _ (fun cur => Progress_copies cur max pm)) in H
    by (intros cur; apply Z2Nat.id, Progress_copies_nonneg).
  assert (sum_upto (fun cur => Progress_copies cur max pm) max = pm - 1) as E.
  { replace (sum_upto (fun cur => Progress_copies cur max pm) max)
      with (sum_upto (fun cur => Progress_copies cur max pm) (max - 1 + 1))
      by (f_equal; lia).
    rewrite sum_upto_succ by (subst max; lia).
    rewrite sum_copies_prefix
      by (subst max pm; unfold GoInt.max_int; lia).
    subst max pm. vm_compute. reflexivity. }
  rewrite E in H. lia.
Qed.

(** C4, amended: for [max >= 1] and [progressMax >= 1] with
    [max * progressMax] fitting a 64-bit [int], and every [symbol], the
    numbers of copies of [symbol] that [Progress] returns for
    [cur = 0 .. max-1] add up to exactly [progressMax]; so do the lengths
    of the returned strings, counted in units of [symbol]. *)
Theorem Progress_total max progressMax symbol :
  1 <= max -> 1 <= progressMax -> max * progressMax <= GoInt.max_int ->
  (forall cur, Progress cur max progressMax symbol
               = str_repeat symbol (Z.to_nat (Progress_copies cur max progressMax))) /\
  sum_upto (fun cur => Progress_copies cur max progressMax) max = progressMax /\
  sum_upto (fun cur => Z.of_nat (String.length (Progress cur max progressMax symbol)))
           max
  = progressMax * Z.of_nat (String.length symbol).
Proof.
  intros Hmax Hpm Hfit.
  assert (sum_upto (fun cur => Progress_copies cur max progressMax) max
          = progressMax) as Hsum.
  { rewrite sum_copies_prefix by lia.
    rewrite (Z.mul_comm max). by rewrite Z.div_mul by lia. }
  split; [intros cur; apply Progress_copies_ok |].
  split; [done |].
  transitivity (sum_upto (fun cur => Progress_copies cur max progressMax) max
                * Z.of_nat (String.length symbol)); [| by rewrite Hsum].
  rewrite <- sum_upto_scale.
  apply sum_upto_ext. intros cur.
  rewrite Progress_copies_ok, length_str_repeat.
  pose proof (Progress_copies_nonneg cur max progressMax). lia.
Qed.

Lemma Progress_total_witness :
  sum_upto (fun cur => Progress_copies cur 7 10) 7 = 10.
Proof.
  apply (Progress_total 7 10 "."); unfold GoInt.max_int; lia.
Defined.

(** ** The override stack *)

Ltac levels := unfold LOG, INFO, WARN, ERROR, CRITICAL in *.

Lemma Logger_eta l :
  mkLogger (verbosity l) (output l) (overrideStack l) (prefixTS l)
           (prefixLevel l) (prefixCaller l) (fmtTimestamp l) = l.
Proof. by destruct l. Qed.

(** With a saved triple on top, [popOverride] restores it and removes it. *)
Lemma popOverride_snoc3 l st a b c :
  overrideStack l = st ++ [a; b; c] ->
  popOverride l
  = mkLogger (verbosity l) (output l) st a c b (fmtTimestamp l).
Proof.
  intros Hst. unfold popOverride. rewrite Hst.
  rewrite length_app. cbn [length].
  destruct (Nat.ltb_spec 2 (length st + 3)) as [_|]; [| lia].
  replace (length st + 3 - 3)%nat with (length st) by lia.
  rewrite lookup_app_r by lia.
  replace (length st - length st)%nat with 0%nat by lia.
  rewrite lookup_app_r by lia.
  replace (length st + 1 - length st)%nat with 1%nat by lia.
  rewrite lookup_app_r by lia.
  replace (length st + 2 - length st)%nat with 2%nat by lia.
  cbn [lookup list_lookup].
  rewrite take_app_length. reflexivity.
Qed.

(** With fewer than three saved flags it does nothing. *)
Lemma popOverride_short l :
  (length (overrideStack l) <= 2)%nat -> popOverride l = l.
Proof.
  intros Hlen. unfold popOverride.
  destruct (Nat.ltb_spec 2 (length (overrideStack l))); [lia | done].
Qed.

Lemma popOverride_pushOverride l ts caller level :
  popOverride (pushOverride l ts caller level) = l.
Proof.
  rewrite (popOverride_snoc3 _ (overrideStack l)
             (prefixTS l) (prefixCaller l) (prefixLevel l)) by done.
  cbn. apply Logger_eta.
Qed.

(** It never touches the verbosity, the sinks or the timestamp layout. *)
Lemma popOverride_frame l :
  verbosity (popOverride l) = verbosity l /\
  output (popOverride l) = output l /\
  fmtTimestamp (popOverride l) = fmtTimestamp l.
Proof.
  unfold popOverride. by repeat case_match.
Qed.

Lemma popOverride_length l :
  length (overrideStack (popOverride l))
  = if (2 <? length (overrideStack l))%nat
    then (length (overrideStack l) - 3)%nat
    else length (overrideStack l).
Proof.
  unfold popOverride.
  destruct (Nat.ltb_spec 2 (length (overrideStack l))) as [Hlt|]; [| done].
  destruct (overrideStack l !! (length (overrideStack l) - 3)%nat) eqn:E0;
    [| apply lookup_ge_None in E0; lia].
  destruct (overrideStack l !! (length (overrideStack l) - 3 + 1)%nat) eqn:E1;
    [| apply lookup_ge_None in E1; lia].
  destruct (overrideStack l !! (length (overrideStack l) - 3 + 2)%nat) eqn:E2;
    [| apply lookup_ge_None in E2; lia].
  cbn. rewrite length_take. lia.
Qed.

Lemma iter_popOverride_empty k l :
  overrideStack l = [] -> Nat.iter k popOverride l = l.
Proof.
  intros Hst. induction k as [|k IH]; [done |].
  rewrite Nat.iter_succ, IH.
  apply popOverride_short. rewrite Hst. cbn. lia.
Qed.

(** ** The emission pipeline *)

Section PipelineFacts.
Context `{rt : GoRuntime}.

Lemma emit_logf fuel l w e :
  emit fuel l w e
  = logf fuel l w (getOutput l (emission_level e)) (emission_level e)
         (emission_format e) (emission_args e).
Proof. by destruct e. Qed.

Lemma emission_level_range e : LOG <= emission_level e <= CRITICAL.
Proof. destruct e; cbn; levels; lia. Qed.

(** A call below the verbosity only pops. *)
Lemma logf_suppressed fuel l w wr level format a :
  level <= CRITICAL -> level < verbosity l ->
  logf (S fuel) l w wr level format a
  = Some (mkResult (popOverride l) w Returned).
Proof.
  intros Hle Hlt. cbn [logf].
  destruct (Z.gtb_spec level CRITICAL); [lia |].
  destruct (Z.geb_spec level (verbosity l)); [lia | done].
Qed.

(** A call at [CRITICAL] panics at once. *)
Lemma logf_critical fuel l w wr format a :
  verbosity l <= CRITICAL ->
  logf (S fuel) l w wr CRITICAL format a
  = Some (mkResult l w (Panicked (PString (Sprintf format a)))).
Proof.
  intros Hv. cbn [logf].
  destruct (Z.gtb_spec CRITICAL CRITICAL); [lia |].
  destruct (Z.geb_spec CRITICAL (verbosity l)); [| lia].
  by rewrite Z.eqb_refl.
Qed.

(** Whatever a call to [logf] does, the logger it leaves is the one it
    found with [popOverride] applied some number of times. *)
Lemma logf_pops fuel : forall l w wr level format a r,
  logf fuel l w wr level format a = Some r ->
  exists k, res_logger r = Nat.iter k popOverride l.
Proof.
  induction fuel as [|fuel IH]; intros l w wr level format a r Hr;
    [done |].
  cbn [logf] in Hr.
  destruct (_ >=? verbosity l); [| by inversion Hr; exists 1%nat].
  destruct (_ =? CRITICAL); [by inversion Hr; exists 0%nat |].
  destruct (match wr with Some _ => wr | None => _ end) as [x|];
    [| by inversion Hr; exists 0%nat].
  destruct (Fprintf _ _ _ _) as [w' [err|]];
    [| by inversion Hr; exists 1%nat].
  destruct (logf fuel l _ _ _ _ _) as [[l' w'' [|p]]|] eqn:Hrec; [| | done].
  - destruct (IH _ _ _ _ _ _ _ Hrec) as [k Hk]. cbn in Hk.
    inversion Hr. exists (S k). cbn [res_logger].
    by rewrite Nat.iter_succ, <- Hk.
  - destruct (IH _ _ _ _ _ _ _ Hrec) as [k Hk].
    inversion Hr. subst r. by exists k.
Qed.

(** With a reliable standard error stream two levels of [logf] always
    suffice: the report of a failed write is itself written or
    suppressed. *)
Lemma logf_terminates l w wr level format a :
  stderr_reliable -> exists r, logf 2 l w wr level format a = Some r.
Proof.
  intros Herr. cbn [logf].
  destruct (_ >=? verbosity l); [| by eexists].
  destruct (_ =? CRITICAL); [by eexists |].
  destruct (match wr with Some _ => wr | None => _ end) as [x|];
    [| by eexists].
  unfold Fprintf at 1.
  destruct (Write_err (writes w) x _) as [err|]; [| by eexists].
  destruct (Z.gtb_spec ERROR CRITICAL); [levels; lia |].
  destruct (ERROR >=? verbosity l); [| by eexists].
  destruct (Z.eqb_spec ERROR CRITICAL); [levels; lia |].
  unfold Fprintf. cbn [writes]. rewrite Herr. by eexists.
Qed.

End PipelineFacts.

(** ** What every reachable logger satisfies *)

Lemma NewLogger_inv : Logger_inv NewLogger.
Proof. split; [cbn; levels; lia | by exists 0%nat]. Qed.

Lemma popOverride_inv l : Logger_inv l -> Logger_inv (popOverride l).
Proof.
  intros [Hv [z Hz]].
  destruct (popOverride_frame l) as (Ev & _ & _).
  split; [by rewrite Ev |].
  rewrite popOverride_length.
  destruct (Nat.ltb_spec 2 (length (overrideStack l))); [| by exists z].
  exists (z - 1)%nat. lia.
Qed.

Lemma pushOverride_inv l ts caller level :
  Logger_inv l -> Logger_inv (pushOverride l ts caller level).
Proof.
  intros [Hv [z Hz]]. split; [done |].
  cbn. rewrite length_app. cbn. exists (S z). lia.
Qed.

Lemma iter_popOverride_inv k l :
  Logger_inv l -> Logger_inv (Nat.iter k popOverride l).
Proof.
  intros Hl. induction k as [|k IH]; [done |].
  rewrite Nat.iter_succ. by apply popOverride_inv.
Qed.

Lemma SetVerbosity_inv l level : Logger_inv l -> Logger_inv (SetVerbosity l level).
Proof.
  intros [_ Hst]. split; [| done]. unfold SetVerbosity. cbn [verbosity with_verbosity].
  destruct (Z.ltb_spec level LOG);
    [destruct (Z.gtb_spec LOG CRITICAL) | destruct (Z.gtb_spec level CRITICAL)];
    levels; lia.
Qed.

Lemma IncreaseVerbosity_inv l :
  Logger_inv l -> Logger_inv (fst (IncreaseVerbosity l)).
Proof.
  intros [Hv Hst]. unfold IncreaseVerbosity. cbn [fst].
  destruct (Z.ltb_spec (verbosity l) CRITICAL); [| done].
  split; [cbn; lia | done].
Qed.

Lemma DecreaseVerbosity_inv l :
  Logger_inv l -> Logger_inv (fst (DecreaseVerbosity l)).
Proof.
  intros [Hv Hst]. unfold DecreaseVerbosity. cbn [fst].
  destruct (Z.gtb_spec (verbosity l) LOG); [| done].
  split; [cbn; lia | done].
Qed.

Lemma SetOutput_inv l level writer :
  Logger_inv l -> Logger_inv (SetOutput l level writer).
Proof.
  intros Hl. unfold SetOutput.
  by destruct ((level <? LOG) || (level >? CRITICAL)).
Qed.

Section Reachability.
Context `{rt : GoRuntime}.

Lemma logf_inv fuel l w wr level format a r :
  Logger_inv l -> logf fuel l w wr level format a = Some r ->
  Logger_inv (res_logger r).
Proof.
  intros Hl Hr. destruct (logf_pops _ _ _ _ _ _ _ _ Hr) as [k ->].
  by apply iter_popOverride_inv.
Qed.

Lemma progress_call_inv fuel l w level s r :
  Logger_inv l ->
  (if (0 <? String.length s)%nat
   then logf fuel (pushOverride l false false false) w
          (getOutput (pushOverride l false false false) level) level s []
   else Some (mkResult l w Returned)) = Some r ->
  Logger_inv (res_logger r).
Proof.
  intros Hl Hr. destruct (0 <? String.length s)%nat.
  - eapply logf_inv; [| exact Hr]. by apply pushOverride_inv.
  - by inversion Hr.
Qed.

Lemma run_op_inv fuel l w op r :
  Logger_inv l -> run_op fuel l w op = Some r -> Logger_inv (res_logger r).
Proof.
  intros Hl Hr. destruct op; cbn [run_op] in Hr;
    try (inversion Hr; subst r; cbn [res_logger]).
  - by apply SetVerbosity_inv.
  - by apply IncreaseVerbosity_inv.
  - by apply DecreaseVerbosity_inv.
  - done.
  - done.
  - done.
  - done.
  - by apply SetOutput_inv.
  - by apply pushOverride_inv.
  - rewrite emit_logf in Hr. by eapply logf_inv.
  - by eapply progress_call_inv.
  - by eapply progress_call_inv.
  - by eapply progress_call_inv.
  - by eapply progress_call_inv.
  - by eapply progress_call_inv.
  - by eapply progress_call_inv.
  - by eapply progress_call_inv.
  - by eapply progress_call_inv.
Qed.

(** The part of the documented invariant that the code keeps: in every
    reachable state the verbosity lies in [LOG, CRITICAL] and the length
    of the override stack is a multiple of 3. *)
Lemma reachable_inv l : reachable l -> Logger_inv l.
Proof.
  induction 1 as [|l w op fuel r _ IH Hr]; [apply NewLogger_inv |].
  by eapply run_op_inv.
Qed.

End Reachability.

(** ** Verbosity *)

(** C9: [SetVerbosity(L)] followed by [GetVerbosity()] gives [L] clamped
    into [LOG, CRITICAL]; [IncreaseVerbosity] at [CRITICAL] and
    [DecreaseVerbosity] at [LOG] change nothing, below [CRITICAL] (above
    [LOG]) they move the verbosity by exactly one level; both return the
    verbosity the logger has after the call. *)
Theorem verbosity_ops l :
  (forall L, GetVerbosity (SetVerbosity l L) = Z.max LOG (Z.min L CRITICAL)) /\
  (verbosity l = CRITICAL -> IncreaseVerbosity l = (l, CRITICAL)) /\
  (verbosity l < CRITICAL ->
   IncreaseVerbosity l = (with_verbosity (verbosity l + 1) l, verbosity l + 1)) /\
  (verbosity l = LOG -> DecreaseVerbosity l = (l, LOG)) /\
  (LOG < verbosity l ->
   DecreaseVerbosity l = (with_verbosity (verbosity l - 1) l, verbosity l - 1)) /\
  snd (IncreaseVerbosity l) = GetVerbosity (fst (IncreaseVerbosity l)) /\
  snd (DecreaseVerbosity l) = GetVerbosity (fst (DecreaseVerbosity l)).
Proof.
  repeat split.
  - intros L. unfold GetVerbosity, SetVerbosity. cbn [verbosity with_verbosity].
    destruct (Z.ltb_spec L LOG);
      [destruct (Z.gtb_spec LOG CRITICAL) | destruct (Z.gtb_spec L CRITICAL)];
      levels; lia.
  - intros Hv. unfold IncreaseVerbosity.
    destruct (Z.ltb_spec (verbosity l) CRITICAL); [lia | by rewrite Hv].
  - intros Hv. unfold IncreaseVerbosity.
    destruct (Z.ltb_spec (verbosity l) CRITICAL); [done | lia].
  - intros Hv. unfold DecreaseVerbosity.
    destruct (Z.gtb_spec (verbosity l) LOG); [lia | by rewrite Hv].
  - intros Hv. unfold DecreaseVerbosity.
    destruct (Z.gtb_spec (verbosity l) LOG); [done | lia].
Qed.

Lemma verbosity_ops_witness :
  IncreaseVerbosity (SetVerbosity NewLogger 9)
  = (SetVerbosity NewLogger 9, CRITICAL) /\
  IncreaseVerbosity NewLogger = (with_verbosity (INFO + 1) NewLogger, INFO + 1) /\
  DecreaseVerbosity (SetVerbosity NewLogger (-3))
  = (SetVerbosity NewLogger (-3), LOG) /\
  DecreaseVerbosity NewLogger = (with_verbosity (INFO - 1) NewLogger, INFO - 1).
Proof.
  split; [| split; [| split]].
  - apply (verbosity_ops (SetVerbosity NewLogger 9)). reflexivity.
  - apply (verbosity_ops NewLogger). reflexivity.
  - apply (verbosity_ops (SetVerbosity NewLogger (-3))). reflexivity.
  - apply (verbosity_ops NewLogger). reflexivity.
Defined.

(** ** Sinks *)

(** [SetOutput] with an unsupported level changes nothing. *)
Lemma SetOutput_invalid_level l level writer :
  level < LOG \/ CRITICAL < level -> SetOutput l level writer = l.
Proof.
  intros Hlevel. unfold SetOutput.
  destruct (Z.ltb_spec level LOG); [done |].
  destruct (Z.gtb_spec level CRITICAL); [done | lia].
Qed.

(** [SetOutput(level, nil)] restores the default for [LOG], [INFO] and
    [CRITICAL]. *)
Lemma SetOutput_nil_default l :
  GetOutput (SetOutput l LOG None) LOG = Some Stdout /\
  GetOutput (SetOutput l INFO None) INFO = Some Stdout /\
  GetOutput (SetOutput l CRITICAL None) CRITICAL = Some Stderr.
Proof.
  unfold GetOutput, SetOutput, map_get. cbn.
  by rewrite !lookup_insert_eq.
Qed.

(** A sink that is not nil is stored as given, and no other level is
    touched. *)
Lemma SetOutput_lookup l level writer level' :
  LOG <= level <= CRITICAL -> LOG <= level' <= CRITICAL ->
  GetOutput (SetOutput l level (Some writer)) level'
  = if decide (level = level') then Some writer else GetOutput l level'.
Proof.
  intros Hl Hl'. unfold GetOutput, SetOutput, map_get.
  destruct (Z.ltb_spec level LOG); [lia |].
  destruct (Z.gtb_spec level CRITICAL); [lia |].
  destruct (Z.ltb_spec level' LOG); [lia |].
  destruct (Z.gtb_spec level' CRITICAL); [lia |].
  cbn. rewrite lookup_insert. by case_decide.
Qed.

(** C1, at the failing inputs: [SetOutput(WARN, nil)] and
    [SetOutput(ERROR, nil)] do not restore the standard error stream; they
    store nil, so the level is left without a sink. *)
Theorem SetOutput_nil_WARN_ERROR l :
  GetOutput (SetOutput l WARN None) WARN = None /\
  GetOutput (SetOutput l ERROR None) ERROR = None.
Proof.
  unfold GetOutput, SetOutput, map_get. cbn.
  by rewrite !lookup_insert_eq.
Qed.

(** Stored sinks are only ever changed by [SetOutput]. *)
Lemma sinks_present_output l l' :
  output l' = output l -> sinks_present l -> sinks_present l'.
Proof.
  intros Ho Hl level Hlevel. specialize (Hl level Hlevel).
  unfold GetOutput in *. by rewrite Ho.
Qed.

Lemma iter_popOverride_output k l : output (Nat.iter k popOverride l) = output l.
Proof.
  induction k as [|k IH]; [done |].
  rewrite Nat.iter_succ.
  destruct (popOverride_frame (Nat.iter k popOverride l)) as (_ & -> & _).
  exact IH.
Qed.

Lemma NewLogger_sinks_present : sinks_present NewLogger.
Proof.
  intros level Hlevel.
  assert (level = 0 \/ level = 1 \/ level = 2 \/ level = 3 \/ level = 4)
    as Hcases by (levels; lia).
  by destruct Hcases as [-> | [-> | [-> | [-> | ->]]]].
Qed.

Lemma SetOutput_sinks_present l level writer :
  nil_for_WARN_or_ERROR (OpSetOutput level writer) = false ->
  sinks_present l -> sinks_present (SetOutput l level writer).
Proof.
  intros Hop Hl level' Hlevel'. specialize (Hl level' Hlevel').
  unfold SetOutput, GetOutput, map_get in *.
  destruct (Z.ltb_spec level' LOG); [lia |].
  destruct (Z.gtb_spec level' CRITICAL); [lia |].
  cbn [orb] in *.
  destruct ((level <? LOG) || (level >? CRITICAL)); [done |].
  cbn [output with_output]. rewrite lookup_insert.
  case_decide as Heq; [| done]. cbn [default].
  destruct writer as [x|]; [done |].
  cbn [nil_for_WARN_or_ERROR] in Hop. apply orb_false_elim in Hop as [H1 H2].
  rewrite H1, H2. by destruct (level =? CRITICAL).
Qed.

Section EmissionClaims.
Context `{rt : GoRuntime}.

(** C3, at the failing input: the state after [NewLogger()] and
    [SetOutput(WARN, nil)] is reachable and has no sink for [WARN]; a
    [Warn] call on it ends in the runtime panic of a write through a nil
    [io.Writer]. *)
Theorem reachable_sink_absent :
  let l := SetOutput NewLogger WARN None in
  reachable l /\
  GetOutput l WARN = None /\
  forall fuel w msg,
    Warn (S fuel) l w msg = Some (mkResult l w (Panicked PNilWriter)).
Proof.
  intros l. split; [| split].
  - exact (reach_step NewLogger world0 (OpSetOutput WARN None) 0
             (mkResult l world0 Returned) reach_new eq_refl).
  - reflexivity.
  - intros fuel w msg. reflexivity.
Qed.

(** C6: in a logger whose verbosity does not exceed [CRITICAL] (every
    reachable logger is one, by [reachable_inv]), [Critical], [Criticalf]
    and [Criticalln] panic with the formatted message as payload, leave the
    world without any new write, and the payload carries no prefix whatever
    the prefix switches are.  For [Criticalln] the text formatted is the
    message under the format of the three characters [%], [s] and newline
    (character 10), which [Sprintf] renders as the message followed by a
    newline. *)
Theorem critical_panics fuel l w :
  verbosity l <= CRITICAL ->
  (forall msg,
      Critical (S fuel) l w msg
      = Some (mkResult l w (Panicked (PString (Sprintf msg []))))) /\
  (forall format a,
      Criticalf (S fuel) l w format a
      = Some (mkResult l w (Panicked (PString (Sprintf format a))))) /\
  (forall msg,
      Criticalln (S fuel) l w msg
      = Some (mkResult l w
                (Panicked
                   (PString
                      (Sprintf
                         (String "%"%char
                            (String "s"%char (String "010"%char EmptyString)))
                         [VString msg]))))
      /\ (Sprintf
            (String "%"%char (String "s"%char (String "010"%char EmptyString)))
            [VString msg]
          = msg +:+ String "010"%char EmptyString ->
          Criticalln (S fuel) l w msg
          = Some (mkResult l w
                    (Panicked
                       (PString (msg +:+ String "010"%char EmptyString)))))).
Proof.
  intros Hv. split; [| split].
  - intros msg. by apply logf_critical.
  - intros format a. by apply logf_critical.
  - intros msg. unfold Criticalln. rewrite logf_critical by done.
    split; [reflexivity |]. intros Hs. unfold fmt_ln, nl.
    change ("%s" +:+ String (ascii_of_nat 10) EmptyString)
      with (String "%"%char
              (String "s"%char (String "010"%char EmptyString))).
    by rewrite Hs.
Qed.

(** C7: an emission at a level other than [CRITICAL] and strictly below
    the verbosity writes nothing and returns; the logger it leaves has
    the same verbosity, sinks and timestamp layout, and if a triple had
    been pushed, that triple is removed from the stack and its flags are
    in force again. *)
Theorem suppressed_emission fuel l w e :
  emission_level e <> CRITICAL ->
  emission_level e < verbosity l ->
  let l' := popOverride l in
  emit (S fuel) l w e = Some (mkResult l' w Returned) /\
  verbosity l' = verbosity l /\
  output l' = output l /\
  fmtTimestamp l' = fmtTimestamp l /\
  (forall st a b c,
      overrideStack l = st ++ [a; b; c] ->
      overrideStack l' = st /\ prefix_flags l' = (a, b, c)).
Proof.
  intros _ Hlt l'.
  pose proof (emission_level_range e) as [_ Hle].
  destruct (popOverride_frame l) as (Ev & Eo & Ef).
  split; [| split; [| split; [| split]]]; try done.
  - rewrite emit_logf. by apply logf_suppressed.
  - intros st a b c Hst. subst l'.
    by rewrite (popOverride_snoc3 l st a b c Hst).
Qed.

(** C10: with an empty override stack, an emission at a level other than
    [CRITICAL] leaves the three prefix flags and the stack as they were,
    however the call ends; and it does end whenever the standard error
    stream accepts writes. *)
Theorem emission_frame_empty_stack l w e :
  overrideStack l = [] ->
  emission_level e <> CRITICAL ->
  (forall fuel r,
      emit fuel l w e = Some r ->
      prefix_flags (res_logger r) = prefix_flags l /\
      overrideStack (res_logger r) = []) /\
  (stderr_reliable -> exists r, emit 2 l w e = Some r).
Proof.
  intros Hst _. split.
  - intros fuel r Hr. rewrite emit_logf in Hr.
    destruct (logf_pops _ _ _ _ _ _ _ _ Hr) as [k ->].
    by rewrite iter_popOverride_empty.
  - intros Herr. rewrite emit_logf. by apply logf_terminates.
Qed.

End EmissionClaims.

Section SinksKept.
Context `{rt : GoRuntime}.

Lemma logf_output fuel l w wr level format a r :
  logf fuel l w wr level format a = Some r -> output (res_logger r) = output l.
Proof.
  intros Hr. destruct (logf_pops _ _ _ _ _ _ _ _ Hr) as [k ->].
  apply iter_popOverride_output.
Qed.

Lemma progress_call_output fuel l w level s r :
  (if (0 <? String.length s)%nat
   then logf fuel (pushOverride l false false false) w
          (getOutput (pushOverride l false false false) level) level s []
   else Some (mkResult l w Returned)) = Some r ->
  output (res_logger r) = output l.
Proof.
  intros Hr. destruct (0 <? String.length s)%nat.
  - by rewrite (logf_output _ _ _ _ _ _ _ _ Hr).
  - by inversion Hr.
Qed.

(** Apart from [SetOutput(WARN, nil)] and [SetOutput(ERROR, nil)], no
    operation leaves a level without a sink. *)
Lemma run_op_sinks_present fuel l w op r :
  nil_for_WARN_or_ERROR op = false ->
  sinks_present l -> run_op fuel l w op = Some r ->
  sinks_present (res_logger r).
Proof.
  intros Hop Hl Hr.
  destruct op; cbn [run_op] in Hr;
    try (inversion Hr; subst r; cbn [res_logger]).
  - by apply (sinks_present_output l).
  - apply (sinks_present_output l); [| done].
    unfold IncreaseVerbosity. by destruct (verbosity l <? CRITICAL).
  - apply (sinks_present_output l); [| done].
    unfold DecreaseVerbosity. by destruct (verbosity l >? LOG).
  - by apply (sinks_present_output l).
  - by apply (sinks_present_output l).
  - by apply (sinks_present_output l).
  - by apply (sinks_present_output l).
  - by apply SetOutput_sinks_present.
  - by apply (sinks_present_output l).
  - rewrite emit_logf in Hr.
    apply (sinks_present_output l); [| done]. by eapply logf_output.
  - apply (sinks_present_output l); [| done]. by eapply progress_call_output.
  - apply (sinks_present_output l); [| done]. by eapply progress_call_output.
  - apply (sinks_present_output l); [| done]. by eapply progress_call_output.
  - apply (sinks_present_output l); [| done]. by eapply progress_call_output.
  - apply (sinks_present_output l); [| done]. by eapply progress_call_output.
  - apply (sinks_present_output l); [| done]. by eapply progress_call_output.
  - apply (sinks_present_output l); [| done]. by eapply progress_call_output.
  - apply (sinks_present_output l); [| done]. by eapply progress_call_output.
Qed.

End SinksKept.

Lemma critical_panics_witness :
  Critical (rt := quiet_runtime) 1 NewLogger world0 "disk full"
  = Some (mkResult NewLogger world0 (Panicked (PString "disk full"))) /\
  Criticalln (rt := quiet_runtime) 1 NewLogger world0 "disk full"
  = Some (mkResult NewLogger world0
            (Panicked
               (PString ("disk full" +:+ String "010"%char EmptyString)))).
Proof.
  assert (verbosity NewLogger <= CRITICAL) as Hv by (cbn; levels; lia).
  destruct (critical_panics (rt := quiet_runtime) 0 NewLogger world0 Hv)
    as (H1 & _ & H3).
  split.
  - exact (H1 "disk full").
  - apply (H3 "disk full"). reflexivity.
Defined.

Lemma suppressed_emission_witness :
  let l := SetVerbosity (OverridePrefix NewLogger true false true) WARN in
  emit (rt := quiet_runtime) 1 l world0 (CallInfo "hi")
  = Some (mkResult (popOverride l) world0 Returned) /\
  overrideStack (popOverride l) = [] /\
  prefix_flags (popOverride l) = (false, false, false).
Proof.
  intros l.
  assert (emission_level (CallInfo "hi") <> CRITICAL) as H1 by (cbn; levels; lia).
  assert (emission_level (CallInfo "hi") < verbosity l) as H2
    by (cbn; levels; lia).
  destruct (suppressed_emission (rt := quiet_runtime) 0 l world0
              (CallInfo "hi") H1 H2) as (A & _ & _ & _ & B).
  split; [exact A |].
  apply (B [] false false false). reflexivity.
Defined.

Lemma emission_frame_empty_stack_witness :
  exists r,
    emit (rt := quiet_runtime) 2 NewLogger world0 (CallWarnln "low disk") = Some r /\
    prefix_flags (res_logger r) = (false, false, false) /\
    overrideStack (res_logger r) = [].
Proof.
  assert (overrideStack NewLogger = []) as H1 by reflexivity.
  assert (emission_level (CallWarnln "low disk") <> CRITICAL) as H2
    by (cbn; levels; lia).
  assert (stderr_reliable (rt := quiet_runtime)) as H3 by (intros h text; reflexivity).
  destruct (emission_frame_empty_stack (rt := quiet_runtime) NewLogger world0
              (CallWarnln "low disk") H1 H2) as [A B].
  destruct (B H3) as [r Hr].
  exists r. split; [exact Hr |]. exact (A 2%nat r Hr).
Defined.

(** ** Overrides on the path where the write succeeds *)

(** [OverridePrefix] applies its flags at once, saves the flags it replaces
    on top of the stack, and one [popOverride] undoes it. *)
Lemma OverridePrefix_effect l ts caller level :
  prefix_flags (OverridePrefix l ts caller level) = (ts, caller, level) /\
  overrideStack (OverridePrefix l ts caller level)
  = overrideStack l ++ [prefixTS l; prefixCaller l; prefixLevel l] /\
  popOverride (OverridePrefix l ts caller level) = l.
Proof.
  split; [done |]. split; [done |]. apply popOverride_pushOverride.
Qed.

(** Two overrides in a row are undone in reverse order, one per pop. *)
Lemma OverridePrefix_twice l0 a1 b1 c1 a2 b2 c2 :
  let l1 := OverridePrefix l0 a1 b1 c1 in
  let l2 := OverridePrefix l1 a2 b2 c2 in
  prefix_flags l2 = (a2, b2, c2) /\
  popOverride l2 = l1 /\
  prefix_flags l1 = (a1, b1, c1) /\
  popOverride l1 = l0.
Proof.
  intros l1 l2. repeat split; apply popOverride_pushOverride.
Qed.

Section WrittenEmission.
Context `{rt : GoRuntime}.

(** An emission that is let through, is not [CRITICAL], has a sink and
    whose write is accepted hands prefix and message to that sink and
    pops once. *)
Lemma emit_written fuel l w e x :
  emission_level e <> CRITICAL ->
  verbosity l <= emission_level e ->
  getOutput l (emission_level e) = Some x ->
  let text :=
    Sprintf "%s%s"
      [VString (getLogPrefix l w (emission_level e));
       VString (Sprintf (emission_format e) (emission_args e))] in
  Write_err (writes w) x text = None ->
  emit (S fuel) l w e
  = Some (mkResult (popOverride l)
            (mkWorld (writes w ++ [(x, text)]) (now w) (frames w)) Returned).
Proof.
  intros Hne Hv Hx text Hok. rewrite emit_logf. cbn [logf].
  pose proof (emission_level_range e) as [_ Hle].
  destruct (Z.gtb_spec (emission_level e) CRITICAL); [lia |].
  destruct (Z.geb_spec (emission_level e) (verbosity l)); [| lia].
  destruct (Z.eqb_spec (emission_level e) CRITICAL); [done |].
  rewrite Hx. unfold Fprintf. fold text. by rewrite Hok.
Qed.

(** When the sink rejects the write and the report of that failure is let
    through and accepted by the standard error stream, the one emission
    pops twice. *)
Lemma emit_failed_write_pops_twice fuel l w e x err :
  emission_level e <> CRITICAL ->
  verbosity l <= emission_level e ->
  getOutput l (emission_level e) = Some x ->
  let text :=
    Sprintf "%s%s"
      [VString (getLogPrefix l w (emission_level e));
       VString (Sprintf (emission_format e) (emission_args e))] in
  let w1 := mkWorld (writes w ++ [(x, text)]) (now w) (frames w) in
  let report :=
    Sprintf "%s%s"
      [VString (getLogPrefix l (nested_world w1) ERROR);
       VString (Sprintf "logging.Logf(): %v" [VError err])] in
  Write_err (writes w) x text = Some err ->
  Write_err (writes w1) Stderr report = None ->
  emit (S (S fuel)) l w e
  = Some (mkResult (popOverride (popOverride l))
            (mkWorld (writes w1 ++ [(Stderr, report)])
               (time_Now_again w1) (Callers_again w1))
            Returned).
Proof.
  intros Hne Hv Hx text w1 report Hfail Hok. rewrite emit_logf.
  pose proof (emission_level_range e) as [Hlo Hle].
  cbn [logf].
  destruct (Z.gtb_spec (emission_level e) CRITICAL); [lia |].
  destruct (Z.geb_spec (emission_level e) (verbosity l)); [| lia].
  destruct (Z.eqb_spec (emission_level e) CRITICAL); [done |].
  rewrite Hx. unfold Fprintf at 1. fold text. rewrite Hfail. fold w1.
  destruct (Z.gtb_spec ERROR CRITICAL); [levels; lia |].
  destruct (Z.geb_spec ERROR (verbosity l)); [| levels; lia].
  destruct (Z.eqb_spec ERROR CRITICAL); [levels; lia |].
  unfold Fprintf. change (writes (nested_world w1)) with (writes w1).
  fold report. by rewrite Hok.
Qed.

End WrittenEmission.

(** ** Where the pop goes wrong *)

(** C2, at the failing inputs.  A [Critical] call after one
    [OverridePrefix] panics before the pop: the saved triple is still on
    the stack and the overriding flags stay in force.  An [Info] call
    after two [OverridePrefix] calls, on a sink that rejects the write,
    pops both triples: the report of the failure goes through [logf] again
    and that inner call pops as well. *)
Theorem emission_pop_defects :
  (let l := OverridePrefix NewLogger true true true in
   exists r,
     Critical (rt := quiet_runtime) 1 l world0 "boom" = Some r /\
     res_outcome r = Panicked (PString "boom") /\
     overrideStack (res_logger r) = [false; false; false] /\
     prefix_flags (res_logger r) = (true, true, true)) /\
  (let l0 := SetOutput NewLogger INFO (Some (Sink 0)) in
   let l := OverridePrefix (OverridePrefix l0 true false false) false true false in
   overrideStack l = [false; false; false; true; false; false] /\
   exists r,
     Info (rt := broken_sink_runtime) 2 l world0 "x" = Some r /\
     res_outcome r = Returned /\
     overrideStack (res_logger r) = [] /\
     prefix_flags (res_logger r) = (false, false, false)).
Proof.
  split.
  - intros l. eexists. split; [reflexivity |]. by cbn.
  - intros l0 l. split; [reflexivity |].
    eexists. split; [reflexivity |]. by cbn.
Qed.

(** C8, at the failing input.  After [OverridePrefix(true, false, false)]
    and [OverridePrefix(false, true, false)] the first emission, whose sink
    rejects the write, consumes both layers; the second emission then runs
    with the flags from before the overrides and writes its message without
    the timestamp that the first override asked for. *)
Theorem override_order_lost_on_failed_write :
  let l0 := SetOutput NewLogger INFO (Some (Sink 0)) in
  let l2 := OverridePrefix (OverridePrefix l0 true false false) false true false in
  prefix_flags l2 = (false, true, false) /\
  exists r1 r2,
    Info (rt := broken_sink_runtime) 2 l2 world0 "first" = Some r1 /\
    res_outcome r1 = Returned /\
    prefix_flags (res_logger r1) = (false, false, false) /\
    Warn (rt := broken_sink_runtime) 2 (res_logger r1) (res_world r1) "second"
    = Some r2 /\
    writes (res_world r2)
    = [(Sink 0, "first");
       (Stderr, "logging.Logf(): write: broken pipe");
       (Stderr, "second")].
Proof.
  intros l0 l2. split; [reflexivity |].
  eexists. eexists. split; [reflexivity |].
  split; [reflexivity |]. split; [reflexivity |].
  split; reflexivity.
Qed.

(** * Further properties of the code *)

(** ** Progress: how the symbols are spread *)

Lemma floor_step_bounds a pm max :
  0 <= a -> 1 <= pm -> 1 <= max ->
  pm / max <= (a + pm) / max - a / max <= pm / max + 1.
Proof.
  intros Ha Hpm Hmax.
  pose proof (Z.div_mod a max ltac:(lia)) as Ea.
  pose proof (Z.div_mod (a + pm) max ltac:(lia)) as Eb.
  pose proof (Z.div_mod pm max ltac:(lia)) as Ep.
  pose proof (Z.mod_pos_bound a max ltac:(lia)).
  pose proof (Z.mod_pos_bound (a + pm) max ltac:(lia)).
  pose proof (Z.mod_pos_bound pm max ltac:(lia)).
  nia.
Qed.

(** X1: without overflow every position gets [floor(progressMax / max)]
    copies or one more; so with [progressMax <= max] a call returns at most
    one copy, and with [progressMax = max] exactly one. *)
Theorem Progress_even_spread cur max progressMax symbol :
  1 <= max -> 1 <= progressMax -> 0 <= cur < max ->
  (cur + 1) * progressMax <= GoInt.max_int ->
  exists n,
    Progress cur max progressMax symbol = str_repeat symbol (Z.to_nat n) /\
    progressMax / max <= n <= progressMax / max + 1 /\
    (progressMax < max -> n = 0 \/ n = 1) /\
    (progressMax = max -> n = 1).
Proof.
  intros Hmax Hpm Hcur Hfit.
  exists (Progress_copies cur max progressMax).
  split; [apply Progress_copies_ok |].
  rewrite Progress_copies_exact by done.
  pose proof (floor_step_bounds (cur * progressMax) progressMax max
                ltac:(nia) Hpm Hmax) as Hb.
  replace (cur * progressMax + progressMax) with ((cur + 1) * progressMax)
    in Hb by lia.
  split; [done |]. split.
  - intros Hlt. rewrite Z.div_small in Hb by lia. lia.
  - intros ->. rewrite Z.div_same in Hb by lia.
    replace ((cur + 1) * max) with (cur * max + 1 * max) in * by lia.
    rewrite Z.div_add in * by lia. rewrite Z.div_mul in * by lia. lia.
Qed.

Lemma Progress_even_spread_witness :
  exists n,
    Progress 3 10 25 "#" = str_repeat "#" (Z.to_nat n) /\ 2 <= n <= 3.
Proof.
  destruct (Progress_even_spread 3 10 25 "#") as (n & Hn & Hb & _);
    [lia | lia | lia | unfold GoInt.max_int; lia |].
  exists n. split; [exact Hn |].
  change (25 / 10) with 2 in Hb. exact Hb.
Defined.

(** X2: without overflow the calls for the positions [0 .. k-1] return
    [floor(k * progressMax / max)] copies in all, for every [k <= max]: the
    output keeps pace with the position. *)
Theorem Progress_running_total max progressMax k :
  1 <= max -> 1 <= progressMax -> 0 <= k <= max ->
  k * progressMax <= GoInt.max_int ->
  sum_upto (fun cur => Progress_copies cur max progressMax) k
  = k * progressMax / max /\
  forall cur symbol,
    Progress cur max progressMax symbol
    = str_repeat symbol (Z.to_nat (Progress_copies cur max progressMax)).
Proof.
  intros Hmax Hpm Hk Hfit. split.
  - by apply sum_copies_prefix.
  - intros cur symbol. apply Progress_copies_ok.
Qed.

Lemma Progress_running_total_witness :
  sum_upto (fun cur => Progress_copies cur 8 20) 5 = 5 * 20 / 8.
Proof.
  apply (Progress_running_total 8 20 5); unfold GoInt.max_int; lia.
Defined.

(** ** Verbosity steps *)

Lemma with_verbosity_same l : with_verbosity (verbosity l) l = l.
Proof. by destruct l. Qed.

(** X3: between the ends of the scale [IncreaseVerbosity] and
    [DecreaseVerbosity] undo each other, and from any valid verbosity four
    steps up end at [CRITICAL] and four steps down end at [LOG]. *)
Theorem verbosity_steps_inverse l :
  LOG <= verbosity l <= CRITICAL ->
  (verbosity l < CRITICAL ->
   fst (DecreaseVerbosity (fst (IncreaseVerbosity l))) = l) /\
  (LOG < verbosity l ->
   fst (IncreaseVerbosity (fst (DecreaseVerbosity l))) = l) /\
  verbosity (Nat.iter 4 (fun l => fst (IncreaseVerbosity l)) l) = CRITICAL /\
  verbosity (Nat.iter 4 (fun l => fst (DecreaseVerbosity l)) l) = LOG.
Proof.
  intros Hv. split; [| split; [| split]].
  - intros Hlt. unfold IncreaseVerbosity, DecreaseVerbosity. cbn [fst].
    destruct (Z.ltb_spec (verbosity l) CRITICAL); [| lia].
    cbn [verbosity with_verbosity].
    destruct (Z.gtb_spec (verbosity l + 1) LOG); [| lia].
    unfold with_verbosity. cbn.
    replace (verbosity l + 1 - 1) with (verbosity l) by lia.
    apply Logger_eta.
  - intros Hgt. unfold IncreaseVerbosity, DecreaseVerbosity. cbn [fst].
    destruct (Z.gtb_spec (verbosity l) LOG); [| lia].
    cbn [verbosity with_verbosity].
    destruct (Z.ltb_spec (verbosity l - 1) CRITICAL); [| lia].
    unfold with_verbosity. cbn.
    replace (verbosity l - 1 + 1) with (verbosity l) by lia.
    apply Logger_eta.
  - assert (forall n l0, verbosity l0 <= CRITICAL ->
              verbosity (Nat.iter n (fun l => fst (IncreaseVerbosity l)) l0)
              = Z.min CRITICAL (verbosity l0 + Z.of_nat n)) as Hup.
    { induction n as [|n IH]; intros l0 H0; [cbn [Nat.iter nat_rect]; lia |].
      rewrite Nat.iter_succ. unfold IncreaseVerbosity at 1. cbn [fst].
      rewrite IH by done.
      destruct (Z.ltb_spec (Z.min CRITICAL (verbosity l0 + Z.of_nat n)) CRITICAL);
        cbn [verbosity with_verbosity]; rewrite ?IH by done; lia. }
    rewrite Hup by lia. levels. lia.
  - assert (forall n l0, LOG <= verbosity l0 ->
              verbosity (Nat.iter n (fun l => fst (DecreaseVerbosity l)) l0)
              = Z.max LOG (verbosity l0 - Z.of_nat n)) as Hdown.
    { induction n as [|n IH]; intros l0 H0; [cbn [Nat.iter nat_rect]; lia |].
      rewrite Nat.iter_succ. unfold DecreaseVerbosity at 1. cbn [fst].
      rewrite IH by done.
      destruct (Z.gtb_spec (Z.max LOG (verbosity l0 - Z.of_nat n)) LOG);
        cbn [verbosity with_verbosity]; rewrite ?IH by done; lia. }
    rewrite Hdown by lia. levels. lia.
Qed.

Lemma verbosity_steps_inverse_witness :
  fst (DecreaseVerbosity (fst (IncreaseVerbosity NewLogger))) = NewLogger /\
  verbosity (Nat.iter 4 (fun l => fst (IncreaseVerbosity l)) NewLogger) = CRITICAL.
Proof.
  assert (LOG <= verbosity NewLogger <= CRITICAL) as Hv by (cbn; levels; lia).
  destruct (verbosity_steps_inverse NewLogger Hv) as (H1 & _ & H3 & _).
  split; [| exact H3]. apply H1. cbn. levels. lia.
Defined.

(** ** Level labels *)

(** X4: [getLevelString] returns a label of four characters for every
    integer: levels below [LOG] get the label of [LOG], levels above
    [CRITICAL] that of [CRITICAL], the blank label of the [default] clause is
    never returned, and different levels in [LOG, CRITICAL] get different
    labels. *)
Theorem getLevelString_labels level :
  String.length (getLevelString level) = 4%nat /\
  getLevelString level <> "    " /\
  (level <= LOG -> getLevelString level = "LOG ") /\
  (CRITICAL <= level -> getLevelString level = "CRIT") /\
  (forall level',
      LOG <= level <= CRITICAL -> LOG <= level' <= CRITICAL ->
      getLevelString level = getLevelString level' -> level = level').
Proof.
  assert (forall v, v <= 0 \/ v = 1 \/ v = 2 \/ v = 3 \/ 4 <= v) as Hcases by lia.
  assert (forall v, v <= 0 -> getLevelString v = "LOG ") as H0.
  { intros v Hv. unfold getLevelString. levels.
    destruct (Z.ltb_spec v 0); [done |]. by replace v with 0 by lia. }
  assert (forall v, 4 <= v -> getLevelString v = "CRIT") as H4.
  { intros v Hv. unfold getLevelString. levels.
    destruct (Z.ltb_spec v 0); [lia |].
    destruct (Z.gtb_spec v 4); [done |]. by replace v with 4 by lia. }
  split; [| split; [| split; [| split]]].
  - destruct (Hcases level) as [H | [-> | [-> | [-> | H]]]];
      rewrite ?H0, ?H4 by done; done.
  - destruct (Hcases level) as [H | [-> | [-> | [-> | H]]]];
      rewrite ?H0, ?H4 by done; done.
  - levels. apply H0.
  - levels. apply H4.
  - intros level' Hl Hl' Heq. levels.
    destruct (Hcases level) as [H | [-> | [-> | [-> | H]]]];
      destruct (Hcases level') as [H' | [-> | [-> | [-> | H']]]];
      rewrite ?(H0 level), ?(H4 level), ?(H0 level'), ?(H4 level') in Heq by done;
      first [lia | discriminate Heq].
Qed.

Lemma getLevelString_labels_witness :
  getLevelString (-7) = "LOG " /\ getLevelString 99 = "CRIT".
Proof.
  split.
  - apply (getLevelString_labels (-7)). unfold LOG. lia.
  - apply (getLevelString_labels 99). unfold CRITICAL. lia.
Defined.

(** ** Overrides: any depth *)

Lemma override_all_snoc l ts t :
  override_all l (ts ++ [t]) = OverridePrefix (override_all l ts) t.1.1 t.1.2 t.2.
Proof. unfold override_all. by rewrite foldl_app. Qed.

(** X5: any number of [OverridePrefix] calls is undone one call per
    [popOverride], the last one first: after the calls the flags of the
    last triple are in force, the stack has grown by three flags per call,
    one pop leads back to the state before the last call, and as many pops
    as calls lead back to the logger before the first call. *)
Theorem overrides_unwind l ts :
  (forall t, prefix_flags (override_all l (ts ++ [t])) = t) /\
  (forall t, popOverride (override_all l (ts ++ [t])) = override_all l ts) /\
  length (overrideStack (override_all l ts))
  = (length (overrideStack l) + 3 * length ts)%nat /\
  Nat.iter (length ts) popOverride (override_all l ts) = l.
Proof.
  split; [| split; [| split]].
  - intros [[a b] c]. by rewrite override_all_snoc.
  - intros t. rewrite override_all_snoc. apply popOverride_pushOverride.
  - induction ts as [|t ts IH] using rev_ind; [cbn; lia |].
    rewrite override_all_snoc, length_app. cbn [length].
    unfold OverridePrefix, pushOverride. cbn [overrideStack with_overrideStack
      with_prefixTS with_prefixCaller with_prefixLevel].
    rewrite length_app, IH. cbn [length]. lia.
  - induction ts as [|t ts IH] using rev_ind; [done |].
    rewrite length_app. cbn [length].
    replace (length ts + 1)%nat with (S (length ts)) by lia.
    rewrite Nat.iter_succ_r, override_all_snoc.
    unfold OverridePrefix. by rewrite popOverride_pushOverride.
Qed.

(** ** Sinks: set and get *)

(** X6: for a level in [LOG, CRITICAL] and a writer that is not nil,
    [SetOutput] followed by [GetOutput] gives the writer back, the sink of
    every other level stays, and nothing but the map of sinks changes; the
    internal [getOutput] reads the same sinks on these levels. *)
Theorem SetOutput_GetOutput level x l :
  LOG <= level <= CRITICAL ->
  let l' := SetOutput l level (Some x) in
  GetOutput l' level = Some x /\
  getOutput l' level = Some x /\
  (forall level', level' <> level -> GetOutput l' level' = GetOutput l level') /\
  verbosity l' = verbosity l /\
  overrideStack l' = overrideStack l /\
  prefix_flags l' = prefix_flags l /\
  fmtTimestamp l' = fmtTimestamp l.
Proof.
  intros Hlevel l'. subst l'. unfold SetOutput, GetOutput, getOutput, map_get.
  destruct (Z.ltb_spec level LOG); [lia |].
  destruct (Z.gtb_spec level CRITICAL); [lia |].
  cbn [orb output with_output]. rewrite lookup_insert_eq.
  split; [done |]. split; [done |]. split; [| done].
  intros level' Hne.
  destruct ((level' <? LOG) || (level' >? CRITICAL)); [done |].
  by rewrite lookup_insert_ne.
Qed.

Lemma SetOutput_GetOutput_witness :
  GetOutput (SetOutput NewLogger WARN (Some (Sink 7))) WARN = Some (Sink 7) /\
  GetOutput (SetOutput NewLogger WARN (Some (Sink 7))) ERROR = Some Stderr.
Proof.
  assert (LOG <= WARN <= CRITICAL) as Hl by (levels; lia).
  destruct (SetOutput_GetOutput WARN (Sink 7) NewLogger Hl) as (H1 & _ & H3 & _).
  split; [exact H1 |].
  rewrite (H3 ERROR); [reflexivity | levels; lia].
Defined.

(** X7: a level outside [LOG, CRITICAL] has no sink of its own:
    [GetOutput] answers nil and [SetOutput] leaves the logger as it is,
    whatever the writer, while the internal [getOutput] falls back on the
    sink of [LOG] below the range and of [CRITICAL] above it. *)
Theorem unsupported_level l level :
  level < LOG \/ CRITICAL < level ->
  GetOutput l level = None /\
  (forall writer, SetOutput l level writer = l) /\
  (level < LOG -> getOutput l level = getOutput l LOG) /\
  (CRITICAL < level -> getOutput l level = getOutput l CRITICAL).
Proof.
  intros Hlevel. unfold GetOutput, SetOutput, getOutput.
  split; [| split; [| split]].
  - destruct (Z.ltb_spec level LOG); [done |].
    destruct (Z.gtb_spec level CRITICAL); [done | lia].
  - intros writer. destruct (Z.ltb_spec level LOG); [done |].
    destruct (Z.gtb_spec level CRITICAL); [done | lia].
  - intros Hlt. destruct (Z.ltb_spec level LOG); [done | lia].
  - intros Hgt. levels.
    destruct (Z.ltb_spec level 0); [lia |].
    destruct (Z.gtb_spec level 4); [done | lia].
Qed.

Lemma unsupported_level_witness :
  GetOutput NewLogger 5 = None /\
  SetOutput NewLogger (-1) (Some (Sink 1)) = NewLogger /\
  getOutput NewLogger 5 = getOutput NewLogger CRITICAL.
Proof.
  assert (5 < LOG \/ CRITICAL < 5) as H5 by (levels; lia).
  assert (-1 < LOG \/ CRITICAL < -1) as H1 by (levels; lia).
  destruct (unsupported_level NewLogger 5 H5) as (A & _ & _ & D).
  destruct (unsupported_level NewLogger (-1) H1) as (_ & B & _).
  split; [exact A |]. split; [apply B |]. apply D. levels. lia.
Defined.

(** ** The caller part of the prefix *)

Lemma find_skip {A} (P : A -> bool) (xs : list A) (y : A) (ys : list A) :
  Forall (fun x => P x = false) xs -> P y = true ->
  List.find P (xs ++ y :: ys) = Some y.
Proof.
  intros Hxs Hy. induction Hxs as [|x xs Hx _ IH]; cbn.
  - by rewrite Hy.
  - by rewrite Hx.
Qed.

Lemma find_none {A} (P : A -> bool) (xs : list A) :
  Forall (fun x => P x = false) xs -> List.find P xs = None.
Proof.
  intros Hxs. induction Hxs as [|x xs Hx _ IH]; cbn; [done |].
  by rewrite Hx.
Qed.

Section CallerFacts.
Context `{rt : GoRuntime}.

Lemma caller_prefix_cons f0 fs :
  caller_prefix (f0 :: fs)
  = match List.find (fun f => str_absent (fn_name f) (caller_key (fn_name f0)))
                    (take 15 fs) with
    | Some f => Sprintf "%s:%d " [VString (fn_name f); VInt (fn_line f)]
    | None => ""
    end.
Proof. reflexivity. Qed.

(** X8: the caller reported in the prefix is the first frame after
    [getLogPrefix]'s own whose name does not contain the key, looked for
    among the first sixteen frames only: frames whose name contains the key
    are passed over, deeper frames are never examined, and when no frame of
    the sixteen qualifies the caller part is empty. *)
Theorem caller_prefix_first_outside f0 inside :
  Forall (fun f => str_absent (fn_name f) (caller_key (fn_name f0)) = false)
         inside ->
  (forall f rest,
      (length inside < 15)%nat ->
      str_absent (fn_name f) (caller_key (fn_name f0)) = true ->
      caller_prefix (f0 :: inside ++ f :: rest)
      = Sprintf "%s:%d " [VString (fn_name f); VInt (fn_line f)]) /\
  (forall rest, (15 <= length inside)%nat ->
                caller_prefix (f0 :: inside ++ rest) = "") /\
  caller_prefix (f0 :: inside) = "" /\
  caller_prefix [] = "".
Proof.
  intros Hin. split; [| split; [| split]].
  - intros f rest Hlen Hf. rewrite caller_prefix_cons.
    rewrite take_app_ge by lia.
    destruct (15 - length inside)%nat as [|k] eqn:Hk; [lia |].
    cbn [take].
    by rewrite (find_skip _ inside f (take k rest)).
  - intros rest Hlen. rewrite caller_prefix_cons.
    rewrite take_app_le by lia.
    rewrite find_none; [done |].
    by apply Forall_take.
  - rewrite caller_prefix_cons.
    rewrite find_none; [done |].
    by apply Forall_take.
  - done.
Qed.

End CallerFacts.

Lemma caller_prefix_first_outside_witness :
  caller_prefix (rt := quiet_runtime)
    [mkFrame "example.com/logging.(*Logger).getLogPrefix" 599;
     mkFrame "example.com/logging.(*Logger).logf" 599;
     mkFrame "example.com/logging.(*Logger).Info" 309;
     mkFrame "main.run" 42;
     mkFrame "main.main" 7]
  = "main.run:42 ".
Proof.
  pose (f0 := mkFrame "example.com/logging.(*Logger).getLogPrefix" 599).
  pose (inside := [mkFrame "example.com/logging.(*Logger).logf" 599;
                   mkFrame "example.com/logging.(*Logger).Info" 309]).
  assert (Forall (fun f => str_absent (fn_name f) (caller_key (fn_name f0)) = false)
                 inside) as Hin by (repeat constructor).
  destruct (caller_prefix_first_outside (rt := quiet_runtime) f0 inside Hin)
    as (H1 & _).
  apply (H1 (mkFrame "main.run" 42) [mkFrame "main.main" 7]).
  - cbn. lia.
  - reflexivity.
Defined.

(** ** What an operation can change *)

Lemma iter_popOverride_frame k l :
  verbosity (Nat.iter k popOverride l) = verbosity l /\
  output (Nat.iter k popOverride l) = output l /\
  fmtTimestamp (Nat.iter k popOverride l) = fmtTimestamp l.
Proof.
  induction k as [|k IH]; [done |].
  rewrite Nat.iter_succ.
  destruct (popOverride_frame (Nat.iter k popOverride l)) as (-> & -> & ->).
  exact IH.
Qed.

Section OperationFrames.
Context `{rt : GoRuntime}.

Lemma logf_frame fuel l w wr level format a r :
  logf fuel l w wr level format a = Some r ->
  verbosity (res_logger r) = verbosity l /\
  output (res_logger r) = output l /\
  fmtTimestamp (res_logger r) = fmtTimestamp l.
Proof.
  intros Hr. destruct (logf_pops _ _ _ _ _ _ _ _ Hr) as [k ->].
  apply iter_popOverride_frame.
Qed.

Lemma progress_call_frame fuel l w level s r :
  (if (0 <? String.length s)%nat
   then logf fuel (pushOverride l false false false) w
          (getOutput (pushOverride l false false false) level) level s []
   else Some (mkResult l w Returned)) = Some r ->
  verbosity (res_logger r) = verbosity l /\
  output (res_logger r) = output l /\
  fmtTimestamp (res_logger r) = fmtTimestamp l.
Proof.
  intros Hr. destruct (0 <? String.length s)%nat.
  - by destruct (logf_frame _ _ _ _ _ _ _ _ Hr) as (-> & -> & ->).
  - by inversion Hr.
Qed.

(** X9: the sinks are changed by [SetOutput] alone, the verbosity by
    [SetVerbosity], [IncreaseVerbosity] and [DecreaseVerbosity] alone, the
    timestamp layout by [SetTimestampFormat] alone, however the operation
    ends; and an operation that does not go through [logf] always returns,
    at once, without panic and without handing anything to a sink. *)
Theorem operations_frame fuel l w op :
  (forall r,
      run_op fuel l w op = Some r ->
      (is_SetOutput op = false -> output (res_logger r) = output l) /\
      (sets_verbosity op = false -> verbosity (res_logger r) = verbosity l) /\
      (is_SetTimestampFormat op = false ->
       fmtTimestamp (res_logger r) = fmtTimestamp l)) /\
  (writes_log op = false ->
   exists l', run_op fuel l w op = Some (mkResult l' w Returned)).
Proof.
  split.
  - intros r Hr.
    destruct op; cbn [run_op] in Hr;
      try (inversion Hr; subst r;
           cbn [res_logger is_SetOutput sets_verbosity is_SetTimestampFormat];
           repeat split; try done;
           unfold SetOutput, IncreaseVerbosity, DecreaseVerbosity;
           repeat case_match; done);
      try (rewrite emit_logf in Hr;
           destruct (logf_frame _ _ _ _ _ _ _ _ Hr) as (E1 & E2 & E3);
           by repeat split);
      destruct (progress_call_frame _ _ _ _ _ _ Hr) as (E1 & E2 & E3);
      by repeat split.
  - intros Hop. destruct op; try discriminate Hop; cbn [run_op]; by eexists.
Qed.

(** X10: in every state reached from [NewLogger()] by the operations,
    through returns and recovered panics alike, the verbosity is one of the
    five levels and the override stack holds a whole number of triples. *)
Theorem reachable_verbosity_stack l :
  reachable l ->
  LOG <= verbosity l <= CRITICAL /\
  exists n, length (overrideStack l) = (3 * n)%nat.
Proof.
  intros Hl. destruct (reachable_inv l Hl) as [Hv [n Hn]].
  split; [done |]. exists n. lia.
Qed.

End OperationFrames.

Lemma operations_frame_witness :
  (exists r,
      run_op (rt := quiet_runtime) 2 NewLogger world0
             (OpEmit (CallWarnf "disk %d%% full" [VInt 93])) = Some r /\
      output (res_logger r) = output NewLogger /\
      verbosity (res_logger r) = INFO) /\
  (exists l',
      run_op (rt := quiet_runtime) 0 NewLogger world0
             (OpSetOutput WARN (Some (Sink 2)))
      = Some (mkResult l' world0 Returned)).
Proof.
  split.
  - eexists. split; [reflexivity |].
    destruct (operations_frame (rt := quiet_runtime) 2 NewLogger world0
                (OpEmit (CallWarnf "disk %d%% full" [VInt 93]))) as [H _].
    destruct (H _ eq_refl) as (H1 & H2 & _).
    split; [apply H1; reflexivity | apply H2; reflexivity].
  - apply (operations_frame (rt := quiet_runtime) 0 NewLogger world0
             (OpSetOutput WARN (Some (Sink 2)))). reflexivity.
Defined.

Lemma reachable_verbosity_stack_witness :
  let l := OverridePrefix (SetVerbosity NewLogger 9) true false true in
  LOG <= verbosity l <= CRITICAL /\
  exists n, length (overrideStack l) = (3 * n)%nat.
Proof.
  intros l.
  apply (reachable_verbosity_stack (rt := quiet_runtime) l).
  apply (reach_step (SetVerbosity NewLogger 9) world0
           (OpOverridePrefix true false true) 0
           (mkResult l world0 Returned)); [| reflexivity].
  apply (reach_step NewLogger world0 (OpSetVerbosity 9) 0
           (mkResult (SetVerbosity NewLogger 9) world0 Returned));
    [apply reach_new | reflexivity].
Defined.

(** ** Panics and sinks *)

Lemma getOutput_in_range l level :
  LOG <= level <= CRITICAL -> getOutput l level = GetOutput l level.
Proof.
  intros Hlevel. unfold getOutput, GetOutput.
  destruct (Z.ltb_spec level LOG); [lia |].
  destruct (Z.gtb_spec level CRITICAL); [lia | done].
Qed.

Section PanicFacts.
Context `{rt : GoRuntime}.

(** With a writer at hand, [logf] can only panic in its [CRITICAL]
    branch. *)
Lemma logf_panic_inv fuel : forall l w wr level format a r p,
  level <= CRITICAL ->
  match wr with None => getOutput l level | Some _ => wr end <> None ->
  logf fuel l w wr level format a = Some r ->
  res_outcome r = Panicked p ->
  level = CRITICAL /\ p = PString (Sprintf format a) /\
  res_logger r = l /\ res_world r = w.
Proof.
  induction fuel as [|fuel IH]; intros l w wr level format a r p Hle Hwr Hr Hp;
    [done |].
  cbn [logf] in Hr.
  destruct (Z.gtb_spec level CRITICAL); [lia |].
  destruct (level >=? verbosity l);
    [| inversion Hr; subst r; discriminate Hp].
  destruct (Z.eqb_spec level CRITICAL) as [->|Hne].
  { inversion Hr; subst r. cbn in Hp. by inversion Hp. }
  destruct (match wr with Some _ => wr | None => _ end) as [x|]; [| done].
  destruct (Fprintf _ _ _ _) as [w' [err|]];
    [| inversion Hr; subst r; discriminate Hp].
  destruct (logf fuel l _ _ _ _ _) as [[l' w'' [|p']]|] eqn:Hrec; [| | done].
  - inversion Hr; subst r. discriminate Hp.
  - exfalso.
    assert (ERROR <= CRITICAL) as HE by (levels; lia).
    assert (Some Stderr <> None) as HS by done.
    destruct (IH l _ (Some Stderr) ERROR _ _ _ p' HE HS Hrec eq_refl)
      as (Habs & _).
    levels. lia.
Qed.

(** X11: as long as [SetOutput(WARN, nil)] and [SetOutput(ERROR, nil)] are
    not called, every level keeps a sink, and no emission ends in the
    runtime panic of a write through a nil writer. *)
Theorem checked_reachable_has_sinks l :
  reachable_checked l ->
  sinks_present l /\
  forall fuel w e r,
    emit fuel l w e = Some r -> res_outcome r <> Panicked PNilWriter.
Proof.
  intros Hl.
  assert (sinks_present l) as Hs.
  { induction Hl as [|l w op fuel r _ IH Hop Hr];
      [apply NewLogger_sinks_present |].
    by eapply run_op_sinks_present. }
  split; [done |].
  intros fuel w e r Hr Hp. rewrite emit_logf in Hr.
  pose proof (emission_level_range e) as Hrange.
  assert (getOutput l (emission_level e) <> None) as Hx.
  { rewrite getOutput_in_range by done. by apply Hs. }
  assert (match getOutput l (emission_level e) with
          | None => getOutput l (emission_level e)
          | Some _ => getOutput l (emission_level e)
          end <> None) as Hwr by (by destruct (getOutput l (emission_level e))).
  destruct (logf_panic_inv _ _ _ _ _ _ _ _ _ (proj2 Hrange) Hwr Hr Hp)
    as (_ & Habs & _). done.
Qed.


End PanicFacts.

Lemma checked_reachable_has_sinks_witness :
  sinks_present (SetOutput NewLogger ERROR (Some (Sink 3))).
Proof.
  apply (checked_reachable_has_sinks (rt := quiet_runtime)).
  apply (checked_step NewLogger world0 (OpSetOutput ERROR (Some (Sink 3))) 0
           (mkResult (SetOutput NewLogger ERROR (Some (Sink 3))) world0 Returned));
    [apply checked_new | reflexivity | reflexivity].
Defined.


(** ** What an emission hands to the sinks *)

Section EmissionFacts.
Context `{rt : GoRuntime}.

(** [logf] only ever adds to the record of writes. *)
Lemma logf_world_extends fuel : forall l w wr level format a r,
  logf fuel l w wr level format a = Some r ->
  exists extra, writes (res_world r) = writes w ++ extra.
Proof.
  induction fuel as [|fuel IH]; intros l w wr level format a r Hr; [done |].
  cbn [logf] in Hr.
  destruct (_ >=? verbosity l);
    [| inversion Hr; exists []; cbn; by rewrite app_nil_r].
  destruct (_ =? CRITICAL);
    [inversion Hr; exists []; cbn; by rewrite app_nil_r |].
  destruct (match wr with Some _ => wr | None => _ end) as [x|];
    [| inversion Hr; exists []; cbn; by rewrite app_nil_r].
  unfold Fprintf in Hr.
  destruct (Write_err (writes w) x _) as [err|];
    [| inversion Hr; by eexists].
  destruct (logf fuel l _ _ _ _ _) as [r'|] eqn:Hrec; [| done].
  destruct (IH _ _ _ _ _ _ _ Hrec) as [extra Hextra].
  cbn [writes nested_world] in Hextra.
  exists ([(x, Sprintf "%s%s"
                 [VString (getLogPrefix l w
                             (if level >? CRITICAL then CRITICAL else level));
                  VString (Sprintf format a)])] ++ extra).
  rewrite app_assoc, <- Hextra.
  destruct r' as [l' w'' [|p]]; by inversion Hr.
Qed.

(** X13: an emission other than [Critical] that is below the verbosity
    returns with the record of writes as it was.  One at or above the
    verbosity, with a sink for its level, returns at once when the sink
    accepts the write, having written just the prefix and the formatted
    message to that sink; it ends whenever [os.Stderr] accepts writes; and
    however it ends, that write to the sink of its level is the first thing
    added to the record. *)
Theorem verbosity_threshold l w e :
  emission_level e <> CRITICAL ->
  (emission_level e < verbosity l ->
   forall fuel,
     emit (S fuel) l w e = Some (mkResult (popOverride l) w Returned)) /\
  (forall x,
      verbosity l <= emission_level e ->
      getOutput l (emission_level e) = Some x ->
      let text :=
        Sprintf "%s%s"
          [VString (getLogPrefix l w (emission_level e));
           VString (Sprintf (emission_format e) (emission_args e))] in
      (Write_err (writes w) x text = None ->
       forall fuel,
         exists r,
           emit (S fuel) l w e = Some r /\ res_outcome r = Returned /\
           writes (res_world r) = writes w ++ [(x, text)]) /\
      (stderr_reliable -> exists r, emit 2 l w e = Some r) /\
      (forall fuel r,
          emit fuel l w e = Some r ->
          exists rest, writes (res_world r) = writes w ++ (x, text) :: rest)).
Proof.
  intros Hne. pose proof (emission_level_range e) as [_ Hle]. split.
  - intros Hlt fuel. rewrite emit_logf. by apply logf_suppressed.
  - intros x Hv Hx text. split; [| split].
    + intros Hok fuel. eexists.
      split; [by apply (emit_written fuel l w e x) |]. done.
    + intros Herr. rewrite emit_logf. by apply logf_terminates.
    + intros fuel r Hr. rewrite emit_logf in Hr.
      destruct fuel as [|fuel]; [done |]. cbn [logf] in Hr.
      destruct (Z.gtb_spec (emission_level e) CRITICAL); [lia |].
      destruct (Z.geb_spec (emission_level e) (verbosity l)); [| lia].
      destruct (Z.eqb_spec (emission_level e) CRITICAL); [done |].
      rewrite Hx in Hr. unfold Fprintf in Hr. fold text in Hr.
      destruct (Write_err (writes w) x text) as [err|];
        [| inversion Hr; by exists []].
      destruct (logf fuel l _ _ _ _ _) as [r'|] eqn:Hrec; [| done].
      destruct (logf_world_extends _ _ _ _ _ _ _ _ Hrec) as [extra Hextra].
      cbn [writes nested_world] in Hextra. exists extra.
      rewrite <- app_assoc in Hextra. cbn [app] in Hextra. rewrite <- Hextra.
      destruct r' as [l' w'' [|p]]; by inversion Hr.
Qed.

(** X14: after [SetVerbosity(L)] with [L >= CRITICAL] every emission other
    than [Critical] is dropped without a write (and still pops); after
    [SetVerbosity(L)] with [L <= LOG] no emission is below the verbosity. *)
Theorem SetVerbosity_mutes l L :
  (CRITICAL <= L ->
   forall fuel w e,
     emission_level e <> CRITICAL ->
     emit (S fuel) (SetVerbosity l L) w e
     = Some (mkResult (popOverride (SetVerbosity l L)) w Returned)) /\
  (L <= LOG -> forall e, verbosity (SetVerbosity l L) <= emission_level e).
Proof.
  split.
  - intros HL fuel w e Hne. rewrite emit_logf.
    pose proof (emission_level_range e) as [_ Hle].
    apply logf_suppressed; [done |].
    unfold SetVerbosity. cbn [verbosity with_verbosity].
    destruct (Z.ltb_spec L LOG); [levels; lia |].
    destruct (Z.gtb_spec L CRITICAL); lia.
  - intros HL e. pose proof (emission_level_range e) as [Hlo _].
    unfold SetVerbosity. cbn [verbosity with_verbosity].
    destruct (Z.ltb_spec L LOG).
    + destruct (Z.gtb_spec LOG CRITICAL); levels; lia.
    + destruct (Z.gtb_spec L CRITICAL); levels; lia.
Qed.

(** X15: when no sink accepts a write, [os.Stderr] included, an emission
    that is let through, is not [Critical] and has a sink never comes back:
    every report of a failed write fails in turn and calls [logf] again,
    at every depth. *)
Theorem broken_sinks_never_return l w e :
  writes_always_fail ->
  emission_level e <> CRITICAL ->
  verbosity l <= emission_level e ->
  getOutput l (emission_level e) <> None ->
  forall fuel, emit fuel l w e = None.
Proof.
  intros Hfail Hne Hv Hx fuel.
  pose proof (emission_level_range e) as [_ Hle].
  assert (verbosity l <= ERROR) as HvE by (levels; lia).
  assert (forall w wr level format a,
            verbosity l <= level -> level < CRITICAL ->
            match wr with None => getOutput l level | Some _ => wr end <> None ->
            logf fuel l w wr level format a = None) as Hgen.
  { clear w Hx. induction fuel as [|fuel IH];
      intros w wr level format a Hlv Hlc Hwr; [done |].
    cbn [logf].
    destruct (Z.gtb_spec level CRITICAL); [lia |].
    destruct (Z.geb_spec level (verbosity l)); [| lia].
    destruct (Z.eqb_spec level CRITICAL); [lia |].
    destruct (match wr with Some _ => wr | None => _ end) as [x|]; [| done].
    unfold Fprintf.
    destruct (Write_err (writes w) x _) as [err|] eqn:Herr;
      [| by apply Hfail in Herr].
    rewrite IH; [done | done | levels; lia | done]. }
  rewrite emit_logf. apply Hgen; [done | lia |].
  by destruct (getOutput l (emission_level e)).
Qed.

(** X16: when [os.Stderr] accepts every write, every operation ends,
    returning or panicking, with at most one nested call of [logf]. *)
Theorem operations_end_with_reliable_stderr l w op :
  stderr_reliable -> exists r, run_op 2 l w op = Some r.
Proof.
  intros Herr.
  assert (forall l level s,
             exists r,
               (if (0 <? String.length s)%nat
                then logf 2 (pushOverride l false false false) w
                       (getOutput (pushOverride l false false false) level)
                       level s []
                else Some (mkResult l w Returned)) = Some r) as Hprog.
  { intros l0 level s. destruct (0 <? String.length s)%nat; [| by eexists].
    by apply logf_terminates. }
  destruct op; cbn [run_op]; try (by eexists); try apply Hprog.
  rewrite emit_logf. by apply logf_terminates.
Qed.

(** X17: when the sink of the level rejects the write and [os.Stderr]
    accepts the report of it, the emission returns to its caller: the error
    is reported on [os.Stderr], whatever sink is set for [ERROR], as
    ["logging.Logf(): "] followed by the error, behind the prefix that the
    nested call builds for [ERROR] (with the flags still in force and the
    clock and the stack as they are then); and the call has popped the
    override stack twice. *)
Theorem write_failure_report fuel l w e x err :
  emission_level e <> CRITICAL ->
  verbosity l <= emission_level e ->
  getOutput l (emission_level e) = Some x ->
  let text :=
    Sprintf "%s%s"
      [VString (getLogPrefix l w (emission_level e));
       VString (Sprintf (emission_format e) (emission_args e))] in
  let w1 := mkWorld (writes w ++ [(x, text)]) (now w) (frames w) in
  let report :=
    Sprintf "%s%s"
      [VString (getLogPrefix l (nested_world w1) ERROR);
       VString (Sprintf "logging.Logf(): %v" [VError err])] in
  Write_err (writes w) x text = Some err ->
  Write_err (writes w1) Stderr report = None ->
  exists r,
    emit (S (S fuel)) l w e = Some r /\
    res_outcome r = Returned /\
    writes (res_world r) = writes w ++ [(x, text); (Stderr, report)] /\
    res_logger r = popOverride (popOverride l).
Proof.
  intros Hne Hv Hx text w1 report Hfail Hok.
  eexists. split; [by apply emit_failed_write_pops_twice |].
  cbn [res_outcome res_world res_logger writes].
  split; [done |]. split; [| done].
  subst w1. cbn [writes]. by rewrite <- app_assoc.
Qed.

(** X18: [OverridePrefix] followed by one emission that is dropped, or
    written and accepted by its sink, leaves the logger exactly as it was
    before the override; the text written carries the prefix built with the
    overriding flags. *)
Theorem override_lasts_one_emission fuel l a b c w e :
  emission_level e <> CRITICAL ->
  let l1 := OverridePrefix l a b c in
  prefix_flags l1 = (a, b, c) /\
  (emission_level e < verbosity l ->
   emit (S fuel) l1 w e = Some (mkResult l w Returned)) /\
  (forall x,
      verbosity l <= emission_level e ->
      getOutput l (emission_level e) = Some x ->
      let text :=
        Sprintf "%s%s"
          [VString (getLogPrefix l1 w (emission_level e));
           VString (Sprintf (emission_format e) (emission_args e))] in
      Write_err (writes w) x text = None ->
      emit (S fuel) l1 w e
      = Some (mkResult l (mkWorld (writes w ++ [(x, text)]) (now w) (frames w))
                Returned)).
Proof.
  intros Hne l1. pose proof (emission_level_range e) as [_ Hle].
  assert (popOverride l1 = l) as Hpop by apply popOverride_pushOverride.
  split; [done |]. split.
  - intros Hlt. rewrite emit_logf, logf_suppressed by done. by rewrite Hpop.
  - intros x Hv Hx text Hok.
    rewrite (emit_written fuel l1 w e x) by done. by rewrite Hpop.
Qed.

End EmissionFacts.

Lemma verbosity_threshold_witness :
  exists r,
    emit (rt := quiet_runtime) 1 (SetPrefixLevel NewLogger true) world0
         (CallErrorln "no route") = Some r /\
    res_outcome r = Returned /\
    writes (res_world r)
    = [] ++ [(Stderr, "ERRO no route" +:+ String "010"%char EmptyString)].
Proof.
  destruct (verbosity_threshold (rt := quiet_runtime)
              (SetPrefixLevel NewLogger true) world0 (CallErrorln "no route")
              ltac:(cbn; levels; lia)) as [_ H].
  destruct (H Stderr ltac:(cbn; levels; lia) eq_refl) as (H1 & _).
  exact (H1 eq_refl 0%nat).
Defined.

Lemma SetVerbosity_mutes_witness :
  emit (rt := quiet_runtime) 1 (SetVerbosity NewLogger 7) world0
       (CallError "no route")
  = Some (mkResult (popOverride (SetVerbosity NewLogger 7)) world0 Returned).
Proof.
  apply (SetVerbosity_mutes (rt := quiet_runtime) NewLogger 7);
    cbn; levels; lia.
Defined.

Lemma broken_sinks_never_return_witness :
  emit (rt := dead_runtime) 50 NewLogger world0 (CallInfo "hello") = None.
Proof.
  apply (broken_sinks_never_return (rt := dead_runtime) NewLogger world0
           (CallInfo "hello")).
  - intros h x text. discriminate.
  - cbn. levels. lia.
  - cbn. levels. lia.
  - discriminate.
Defined.

Lemma operations_end_with_reliable_stderr_witness :
  exists r,
    run_op (rt := broken_sink_runtime) 2
           (SetOutput NewLogger INFO (Some (Sink 0))) world0
           (OpEmit (CallInfo "hello")) = Some r.
Proof.
  apply (operations_end_with_reliable_stderr (rt := broken_sink_runtime)).
  intros h text. reflexivity.
Defined.

Lemma write_failure_report_witness :
  let l := SetPrefixTimestamp
             (SetOutput (SetOutput NewLogger INFO (Some (Sink 0)))
                        ERROR (Some (Sink 5))) true in
  exists r,
    emit (rt := ticking_runtime) 2 l world0 (CallInfo "hello") = Some r /\
    res_outcome r = Returned /\
    writes (res_world r)
    = [] ++ [(Sink 0, "0 hello");
             (Stderr, "1 logging.Logf(): write: broken pipe")] /\
    res_logger r = popOverride (popOverride l).
Proof.
  intros l.
  apply (write_failure_report (rt := ticking_runtime) 0 l world0
           (CallInfo "hello") (Sink 0) "write: broken pipe").
  - cbn. levels. lia.
  - cbn. levels. lia.
  - reflexivity.
  - reflexivity.
  - reflexivity.
Defined.

Lemma override_lasts_one_emission_witness :
  emit (rt := quiet_runtime) 1 (OverridePrefix NewLogger false false true) world0
       (CallWarn "low disk")
  = Some (mkResult NewLogger
            (mkWorld ([] ++ [(Stderr, "WARN low disk")]) 0 []) Returned).
Proof.
  destruct (override_lasts_one_emission (rt := quiet_runtime) 0 NewLogger
              false false true world0 (CallWarn "low disk")
              ltac:(cbn; levels; lia)) as (_ & _ & H).
  apply (H Stderr); [cbn; levels; lia | reflexivity | reflexivity].
Defined.

(** ** Progress output through the logger *)

Lemma length_pos_nonempty (s : string) :
  (0 <? String.length s)%nat = negb (bool_decide (s = "")).
Proof. by destruct s. Qed.

Section ProgressFacts.
Context `{rt : GoRuntime}.

Lemma getLogPrefix_flags_off l w level :
  getLogPrefix (pushOverride l false false false) w level = "".
Proof. reflexivity. Qed.

Lemma getOutput_pushOverride l ts caller lvl level :
  getOutput (pushOverride l ts caller lvl) level = getOutput l level.
Proof. reflexivity. Qed.

(** X19: each of [LogProgress], [InfoProgress], [WarnProgress] and
    [ErrorProgress] does nothing at all when [Progress] yields no symbol;
    with symbols to show it leaves the logger exactly as it found it, prefix
    flags and override stack included, whether the level is below the
    verbosity (nothing is written) or the sink accepts the write; what is
    written then is the symbols, passed through [Sprintf] as a format
    string, behind an empty prefix. *)
Theorem progress_call_effect f level fuel l w cur max progressMax symbol :
  (f, level) ∈ progress_calls ->
  let s := Progress cur max progressMax symbol in
  (s = "" -> f fuel l w cur max progressMax symbol = Some (mkResult l w Returned)) /\
  (s <> "" -> level < verbosity l ->
   f (S fuel) l w cur max progressMax symbol = Some (mkResult l w Returned)) /\
  (forall x,
      s <> "" -> verbosity l <= level -> getOutput l level = Some x ->
      let text := Sprintf "%s%s" [VString ""; VString (Sprintf s [])] in
      Write_err (writes w) x text = None ->
      f (S fuel) l w cur max progressMax symbol
      = Some (mkResult l (mkWorld (writes w ++ [(x, text)]) (now w) (frames w))
                Returned)).
Proof.
  intros Hf s.
  assert (exists F,
            f = (fun fuel l w cur max pm symbol =>
                   let s := Progress cur max pm symbol in
                   if (0 <? String.length s)%nat then
                     let l := pushOverride l false false false in
                     logf fuel l w (getOutput l level) level s []
                   else Some (mkResult l w Returned)) /\
            F = level /\ LOG <= level <= ERROR) as (F & -> & _ & Hrange).
  { unfold progress_calls in Hf.
    repeat (apply elem_of_cons in Hf as [Hf | Hf]);
      [inversion Hf; subst; eexists; repeat split; levels; lia ..
      | by apply elem_of_nil in Hf]. }
  cbv zeta. fold s. rewrite length_pos_nonempty.
  split; [| split].
  - intros Hs. by rewrite bool_decide_eq_true_2.
  - intros Hs Hlt. rewrite bool_decide_eq_false_2 by done. cbn [negb].
    rewrite logf_suppressed by (cbn; levels; lia).
    by rewrite popOverride_pushOverride.
  - intros x Hs Hv Hx Hok.
    rewrite bool_decide_eq_false_2 by done. cbn [negb].
    cbn [logf].
    destruct (Z.gtb_spec level CRITICAL); [levels; lia |].
    change (verbosity (pushOverride l false false false)) with (verbosity l).
    destruct (Z.geb_spec level (verbosity l)); [| lia].
    destruct (Z.eqb_spec level CRITICAL); [levels; lia |].
    rewrite getOutput_pushOverride, Hx, getLogPrefix_flags_off.
    unfold Fprintf. rewrite Hok.
    by rewrite popOverride_pushOverride.
Qed.

End ProgressFacts.

Lemma progress_call_effect_witness :
  InfoProgress (rt := quiet_runtime) 1 (SetPrefixLevel NewLogger true) world0
               1 4 2 "*"
  = Some (mkResult (SetPrefixLevel NewLogger true)
            (mkWorld ([] ++ [(Stdout, "*")]) 0 []) Returned) /\
  InfoProgress (rt := quiet_runtime) 1 (SetPrefixLevel NewLogger true) world0
               0 4 2 "*"
  = Some (mkResult (SetPrefixLevel NewLogger true) world0 Returned).
Proof.
  assert ((InfoProgress (rt := quiet_runtime), INFO)
            ∈ progress_calls (rt := quiet_runtime)) as Hin
    by (apply list_elem_of_In; cbn; tauto).
  split.
  - destruct (progress_call_effect (rt := quiet_runtime) _ _ 0
                (SetPrefixLevel NewLogger true) world0 1 4 2 "*" Hin)
      as (_ & _ & H).
    apply (H Stdout); [discriminate | cbn; levels; lia | reflexivity | reflexivity].
  - destruct (progress_call_effect (rt := quiet_runtime) _ _ 1
                (SetPrefixLevel NewLogger true) world0 0 4 2 "*" Hin)
      as (H & _).
    apply H. reflexivity.
Defined.
